(** * ovsdbapp: record resolution, condition matching and the commit loop

    A shallow embedding of
      - [ovsdbapp/backend/ovs_idl/idlutils.py]  (row_by_value, row_by_record,
        get_column_value, condition_match, row_match, get_index_column,
        db_replace_record, wait_for_change), and
      - [ovsdbapp/backend/ovs_idl/transaction.py]  (Transaction.do_commit and
        its helpers),
    together with the properties of these functions.

    Python exceptions are modelled by the [result] monad, Python objects that
    are mutated in place by an explicit store, and the collaborators of the
    commit loop (the IDL, the low-level transaction handle, the commands and
    the wall clock) by the variables of a section. *)

From Stdlib Require Import ZArith Lia Ascii.
From stdpp Require Import base list strings gmap.

Local Open Scope string_scope.
Local Open Scope list_scope.
Local Open Scope Z_scope.

(** ** Python values *)

(** [uuid.UUID]: compared through its 128-bit integer. *)
Record UUID := MkUUID { uuid_int : Z }.

Global Instance UUID_eq_dec : EqDecision UUID.
Proof. solve_decision. Defined.

(** Python 2 has two text types, [str] and [unicode]; both belong to
    [six.string_types] and compare equal when they hold the same text. *)
Inductive strkind := KStr | KUnicode.

(** [ovs.db.types.Type]: only [is_optional()] is consulted. *)
Record ColumnType := { is_optional : bool }.

(** Values that live in columns and condition operands.  An [atom] is a
    hashable scalar (OVSDB reals are left out: no floating point here); a
    [value] is what a column or an operand holds.  An IDL [Row] carries its
    identity, the column schema of its table ([row._table.columns]) and its
    attributes. *)
Inductive atom :=
| ABool (b : bool)
| AInt (z : Z)
| AStr (k : strkind) (s : string)
| AUuid (u : UUID)
| ARow (r : Row)
with value :=
| VNone
| VAtom (a : atom)
| VList (l : list atom)
| VDict (d : list (atom * atom))
with Row :=
| MkRow (uuid : UUID) (columns : gmap string ColumnType)
        (attrs : gmap string value).

Definition row_uuid (r : Row) : UUID := let 'MkRow u _ _ := r in u.
Definition row_columns (r : Row) : gmap string ColumnType :=
  let 'MkRow _ c _ := r in c.
Definition row_attrs (r : Row) : gmap string value :=
  let 'MkRow _ _ a := r in a.

(** ** Exceptions and the error monad *)

Inductive pyexn :=
| ValueError (msg : string)
| TypeError
| KeyError
| IndexError
| AttributeError
| NotImplementedError
| StopIteration
| RuntimeError (msg : string)
| RowNotFound (table col : string) (match_ : value).

Inductive result (A : Type) :=
| Ok (a : A)
| Raise (e : pyexn).
Arguments Ok {A} a.
Arguments Raise {A} e.

Global Instance result_ret : MRet result := fun _ a => Ok a.

Global Instance result_bind : MBind result := fun _ _ k m =>
  match m with
  | Ok a => k a
  | Raise e => Raise e
  end.

(** [exceptions.OvsdbAppException] and its subclasses; of the exceptions
    raised in these two files only [RowNotFound] is one. *)
Definition is_OvsdbAppException (e : pyexn) : bool :=
  match e with
  | RowNotFound _ _ _ => true
  | _ => false
  end.

(** ** Python primitives used by the code *)

(** [type(x)] *)
Inductive pytype :=
| TNone | TBool | TInt | TStr | TUnicode | TUuid | TRow | TList | TDict.

Global Instance pytype_eq_dec : EqDecision pytype.
Proof. solve_decision. Defined.

Definition type_of_atom (a : atom) : pytype :=
  match a with
  | ABool _ => TBool
  | AInt _ => TInt
  | AStr KStr _ => TStr
  | AStr KUnicode _ => TUnicode
  | AUuid _ => TUuid
  | ARow _ => TRow
  end.

Definition type_of (v : value) : pytype :=
  match v with
  | VNone => TNone
  | VAtom a => type_of_atom a
  | VList _ => TList
  | VDict _ => TDict
  end.

(** [isinstance(x, six.string_types)] *)
Definition is_string (v : value) : bool :=
  match v with
  | VAtom (AStr _ _) => true
  | _ => false
  end.

(** [==] on scalars: [bool] is a subclass of [int] and compares as 0/1, the
    two text types compare by content, UUIDs by their integer, rows by their
    identity (their UUID); values of unrelated types are unequal. *)
Definition atom_eqb (a b : atom) : bool :=
  match a, b with
  | ABool x, ABool y => Bool.eqb x y
  | ABool x, AInt y => Z.b2z x =? y
  | AInt x, ABool y => x =? Z.b2z y
  | AInt x, AInt y => x =? y
  | AStr _ s, AStr _ t => bool_decide (s = t)
  | AUuid u, AUuid v => uuid_int u =? uuid_int v
  | ARow r, ARow s => uuid_int (row_uuid r) =? uuid_int (row_uuid s)
  | _, _ => false
  end.

(** [x in l] for a list [l]. *)
Definition list_mem (x : atom) (l : list atom) : bool :=
  existsb (atom_eqb x) l.

(** [d[k]] and [k in d] for a dict held as its items in insertion order. *)
Fixpoint dict_get (d : list (atom * atom)) (k : atom) : option atom :=
  match d with
  | [] => None
  | (k', v) :: d' => if atom_eqb k k' then Some v else dict_get d' k
  end.

Definition dict_mem (k : atom) (d : list (atom * atom)) : bool :=
  match dict_get d k with
  | Some _ => true
  | None => false
  end.

Fixpoint list_eqb (l1 l2 : list atom) : bool :=
  match l1, l2 with
  | [], [] => true
  | a :: l1', b :: l2' => atom_eqb a b && list_eqb l1' l2'
  | _, _ => false
  end.

(** Every item of [d1] is in [d2] with an equal value. *)
Definition dict_incl (d1 d2 : list (atom * atom)) : bool :=
  forallb (fun kv => match dict_get d2 (fst kv) with
                     | Some v => atom_eqb (snd kv) v
                     | None => false
                     end) d1.

(** [x == y] *)
Definition py_eq (x y : value) : bool :=
  match x, y with
  | VNone, VNone => true
  | VAtom a, VAtom b => atom_eqb a b
  | VList l1, VList l2 => list_eqb l1 l2
  | VDict d1, VDict d2 =>
      (length d1 =? length d2)%nat && dict_incl d1 d2
  | _, _ => false
  end.

(** [x != y] *)
Definition py_ne (x y : value) : bool := negb (py_eq x y).

(** [bool(x)] *)
Definition truthy (v : value) : bool :=
  match v with
  | VNone => false
  | VAtom (ABool b) => b
  | VAtom (AInt z) => negb (z =? 0)
  | VAtom (AStr _ s) => negb (bool_decide (s = ""))
  | VAtom (AUuid _) => true
  | VAtom (ARow _) => true
  | VList l => match l with [] => false | _ => true end
  | VDict d => match d with [] => false | _ => true end
  end.

(** [set(l)]: one representative per class of equal elements. *)
Fixpoint py_set (l : list atom) : list atom :=
  match l with
  | [] => []
  | x :: l' => x :: filter (fun y => atom_eqb x y = false) (py_set l')
  end.

Fixpoint is_prefix (p s : string) : bool :=
  match p, s with
  | EmptyString, _ => true
  | String a p', String b s' => bool_decide (a = b) && is_prefix p' s'
  | String _ _, EmptyString => false
  end.

(** [p in s] for two strings. *)
Fixpoint is_substring (p s : string) : bool :=
  is_prefix p s ||
  match s with
  | EmptyString => false
  | String _ s' => is_substring p s'
  end.

(** [x in container]; objects that are not containers raise [TypeError], and
    so does a non-string tested against a string. *)
Definition py_contains (x : atom) (c : value) : result bool :=
  match c with
  | VDict d => Ok (dict_mem x d)
  | VList l => Ok (list_mem x l)
  | VAtom (AStr _ s) =>
      match x with
      | AStr _ p => Ok (is_substring p s)
      | _ => Raise TypeError
      end
  | _ => Raise TypeError
  end.

(** An integer index into a sequence, negative indices counting from the
    end. *)
Definition seq_index {A} (l : list A) (i : Z) : option A :=
  let n := Z.of_nat (length l) in
  if (0 <=? i) && (i <? n) then l !! Z.to_nat i
  else if (- n <=? i) && (i <? 0) then l !! Z.to_nat (n + i)
  else None.

Definition index_of_atom (k : atom) : option Z :=
  match k with
  | ABool b => Some (Z.b2z b)
  | AInt z => Some z
  | _ => None
  end.

Fixpoint string_chars (s : string) : list atom :=
  match s with
  | EmptyString => []
  | String a s' => AStr KStr (String a EmptyString) :: string_chars s'
  end.

(** [container[k]] *)
Definition py_getitem (c : value) (k : atom) : result atom :=
  match c with
  | VDict d =>
      match dict_get d k with
      | Some v => Ok v
      | None => Raise KeyError
      end
  | VList l =>
      match index_of_atom k with
      | Some i => match seq_index l i with
                  | Some v => Ok v
                  | None => Raise IndexError
                  end
      | None => Raise TypeError
      end
  | VAtom (AStr _ s) =>
      match index_of_atom k with
      | Some i => match seq_index (string_chars s) i with
                  | Some v => Ok v
                  | None => Raise IndexError
                  end
      | None => Raise TypeError
      end
  | _ => Raise TypeError
  end.

(** ** idlutils.py: the value and condition evaluator *)

Module Idlutils.

(** [getattr(row, col)] *)
Definition getattr (row : Row) (col : string) : result value :=
  match row_attrs row !! col with
  | Some v => Ok v
  | None => Raise AttributeError
  end.

(** [row._table.columns[col].type] *)
Definition column_type (row : Row) (col : string) : result ColumnType :=
  match row_columns row !! col with
  | Some t => Ok t
  | None => Raise KeyError
  end.

(** [[v.uuid for v in val]]: only rows have a [uuid] attribute. *)
Fixpoint uuids_of (val : list atom) : result (list atom) :=
  match val with
  | [] => Ok []
  | ARow r :: val' => us ← uuids_of val'; Ok (AUuid (row_uuid r) :: us)
  | _ :: _ => Raise AttributeError
  end.

(** idlutils.py, lines 148-167. *)
Definition get_column_value (row : Row) (col : string) : result value :=
  val ← (if bool_decide (col = "_uuid")
         then Ok (VAtom (AUuid (row_uuid row)))
         else getattr row col);
  match val with
  | VList (v0 :: vs) =>
      l ← (match v0 with
           | ARow _ => uuids_of (v0 :: vs)
           | _ => Ok (v0 :: vs)
           end);
      col_type ← column_type row col;
      if is_optional col_type
      then match l with
           | x :: _ => Ok (VAtom x)
           | [] => Raise IndexError
           end
      else Ok (VList l)
  | _ => Ok val
  end.

Definition condition : Type := string * string * value.

(** Lines 184-200 of [condition_match]: the check that the operand and the
    column value have the same type, with the empty-list carve-out of
    optional columns.  Returns the (possibly normalised) [match] and [val]. *)
Definition check_types (row : Row) (col : string) (match_ val : value)
  : result (value * value) :=
  if negb (bool_decide (type_of match_ = type_of val))
     && negb (is_string match_ && is_string val)
  then
    if negb (truthy match_ && truthy val) then
      col_type ← column_type row col;
      if is_optional col_type then
        if py_eq match_ (VList []) then Ok (VNone, val)
        else if py_eq val (VList []) then Ok (match_, VNone)
        else Ok (match_, val)
      else Raise (ValueError "Column type and condition operand do not match")
    else Raise (ValueError "Column type and condition operand do not match")
  else Ok (match_, val).

(** Lines 207-217: the loop over the keys of a dict operand. *)
Fixpoint match_dict (op : string) (match_ : list (atom * atom)) (val : value)
    (keys : list atom) : result bool :=
  match keys with
  | [] => Ok true
  | key :: keys' =>
      if bool_decide (op = "=") then
        present ← py_contains key val;
        stop ← (if negb present then Ok true
                else mk ← py_getitem (VDict match_) key;
                     vk ← py_getitem val key;
                     Ok (negb (atom_eqb mk vk)));
        if stop : bool then Ok false else match_dict op match_ val keys'
      else if bool_decide (op = "!=") then
        present ← py_contains key val;
        stop ← (if negb present then Ok true
                else mk ← py_getitem (VDict match_) key;
                     vk ← py_getitem val key;
                     Ok (atom_eqb mk vk));
        if stop : bool then Ok false else match_dict op match_ val keys'
      else Raise NotImplementedError
  end.

(** Lines 225-228: every element of the operand is in the value. *)
Fixpoint match_includes (val : value) (elems : list atom) : result bool :=
  match elems with
  | [] => Ok true
  | elem :: elems' =>
      present ← py_contains elem val;
      if negb present then Ok false else match_includes val elems'
  end.

(** Lines 232-235: no element of the operand is in the value. *)
Fixpoint match_excludes (val : value) (elems : list atom) : result bool :=
  match elems with
  | [] => Ok true
  | elem :: elems' =>
      present ← py_contains elem val;
      if present : bool then Ok false else match_excludes val elems'
  end.

(** Lines 202-247 of [condition_match]: the comparison, by operand shape. *)
Definition compare (op : string) (match_ val : value) : result bool :=
  match match_ with
  | VDict d => match_dict op d val (map fst d)
  | VList l =>
      if bool_decide (op = "=") then
        if negb (truthy val && truthy match_) then Ok (py_eq val match_)
        else match_includes val (py_set l)
      else if bool_decide (op = "!=") then
        if negb (truthy val && truthy match_) then Ok (py_ne val match_)
        else match_excludes val (py_set l)
      else Raise NotImplementedError
  | _ =>
      if bool_decide (op = "=") then Ok (negb (py_ne val match_))
      else if bool_decide (op = "!=") then Ok (negb (py_eq val match_))
      else Raise NotImplementedError
  end.

(** idlutils.py, lines 170-247. *)
Definition condition_match (row : Row) (cond : condition) : result bool :=
  let '(col, op, match_) := cond in
  val ← get_column_value row col;
  '(match_, val) ← check_types row col match_ val;
  compare op match_ val.

(** idlutils.py, lines 250-252: [all] over a generator stops at the first
    condition that does not match. *)
Fixpoint row_match (row : Row) (conditions : list condition) : result bool :=
  match conditions with
  | [] => Ok true
  | cond :: conditions' =>
      b ← condition_match row cond;
      if b : bool then row_match row conditions' else Ok false
  end.

End Idlutils.

(** ** idlutils.py: the record resolver *)

Module Resolver.
Import Idlutils.

(** A table of the IDL: its indexes (each a list of column names) and its
    rows, keyed by UUID, in iteration order. *)
Record Table := {
  indexes : list (list string);
  rows : list (UUID * Row)
}.

(** The IDL as far as the resolver reads it: [idl_.tables]. *)
Record Idl := { tables : gmap string Table }.

Record RowLookup := {
  table : option string;
  column : option string;
  uuid_column : option string
}.

(** Tables with no index in OVSDB and special record lookup rules
    (idlutils.py, lines 35-46). *)
Definition _LOOKUP_TABLE : gmap string RowLookup :=
  list_to_map [
    ("Controller", Build_RowLookup (Some "Bridge") (Some "name") (Some "controller"));
    ("Flow_Table", Build_RowLookup (Some "Flow_Table") (Some "name") None);
    ("IPFIX", Build_RowLookup (Some "Bridge") (Some "name") (Some "ipfix"));
    ("Mirror", Build_RowLookup (Some "Mirror") (Some "name") None);
    ("NetFlow", Build_RowLookup (Some "Bridge") (Some "name") (Some "netflow"));
    ("Open_vSwitch", Build_RowLookup (Some "Open_vSwitch") None None);
    ("QoS", Build_RowLookup (Some "Port") (Some "name") (Some "qos"));
    ("Queue", Build_RowLookup None None None);
    ("sFlow", Build_RowLookup (Some "Bridge") (Some "name") (Some "sflow"));
    ("SSL", Build_RowLookup (Some "Open_vSwitch") None (Some "ssl"))
  ].

(** [idl_.tables[table]] *)
Definition get_table (idl_ : Idl) (name : string) : result Table :=
  match tables idl_ !! name with
  | Some t => Ok t
  | None => Raise KeyError
  end.

(** [t.rows[u]] *)
Fixpoint rows_get (rs : list (UUID * Row)) (u : UUID) : result Row :=
  match rs with
  | [] => Raise KeyError
  | (u', r) :: rs' => if bool_decide (u = u') then Ok r else rows_get rs' u
  end.

(** Lines 58-60 of [row_by_value]: the scan for the first row whose column
    equals [match]. *)
Fixpoint scan_rows (rs : list (UUID * Row)) (column : string) (match_ : value)
  : result (option Row) :=
  match rs with
  | [] => Ok None
  | (_, r) :: rs' =>
      v ← getattr r column;
      if py_eq v match_ then Ok (Some r) else scan_rows rs' column match_
  end.

(** idlutils.py, lines 55-63.  [default = None] stands for the [_NO_DEFAULT]
    sentinel. *)
Definition row_by_value {D} (idl_ : Idl) (table column : string)
    (match_ : value) (default : option D) : result (Row + D) :=
  tab ← get_table idl_ table;
  found ← scan_rows (rows tab) column match_;
  match found with
  | Some r => Ok (inl r)
  | None =>
      match default with
      | Some d => Ok (inr d)
      | None => Raise (RowNotFound table column match_)
      end
  end.

(** idlutils.py, lines 255-259. *)
Definition get_index_column (t : Table) : option string :=
  match indexes t with
  | [idx] => match idx with
             | [c] => Some c
             | _ => None
             end
  | _ => None
  end.

(** [len(x)] *)
Definition py_len (v : value) : result nat :=
  match v with
  | VList l => Ok (length l)
  | VDict d => Ok (length d)
  | VAtom (AStr _ s) => Ok (String.length s)
  | _ => Raise TypeError
  end.

(** [exc % x]: exception objects do not implement the [%] operator, so the
    expression itself raises [TypeError]. *)
Definition exn_mod (exc : pyexn) (x : string) : result pyexn :=
  Raise TypeError.

(** [next(iter(rows.values()))] *)
Definition first_row (rs : list (UUID * Row)) : result Row :=
  match rs with
  | [] => Raise StopIteration
  | (_, r) :: _ => Ok r
  end.

Section WithEnvironment.

(** The standard library's [uuid.UUID(s)] on a string; [None] when it
    raises [ValueError]. *)
Variable uuid_UUID : string -> option UUID.

(** [sys.platform] *)
Variable sys_platform : string.

(** Lines 69-72 of [row_by_record], the body of the [try]. *)
Definition direct_lookup (t : Table) (record : value) : result Row :=
  match record with
  | VAtom (AUuid u) => rows_get (rows t) u
  | VAtom (AStr _ s) =>
      match uuid_UUID s with
      | Some uuid_ => rows_get (rows t) uuid_
      | None => Raise (ValueError "badly formed hexadecimal UUID string")
      end
  | VNone => Raise TypeError
  | _ => Raise AttributeError
  end.

(** Lines 88-100 of [row_by_record], after the [try] statement.  Line 91 is
    [raise ValueError("Table %s can only be queried by UUID") % table]:
    the [%] is applied to the exception object, not to the message. *)
Definition lookup_by_strategy (idl_ : Idl) (table_ : string) (t : Table)
    (record : value) : result atom :=
  let rl := default (Build_RowLookup (Some table_) (get_index_column t) None)
                    (_LOOKUP_TABLE !! table_) in
  match table rl with
  | None =>
      exc ← exn_mod (ValueError "Table %s can only be queried by UUID") table_;
      Raise exc
  | Some rl_table =>
      match column rl with
      | None => r ← first_row (rows t); Ok (ARow r)
      | Some rl_column =>
          found ← row_by_value (D:=Empty_set) idl_ rl_table rl_column record None;
          match found with
          | inr d => match d : Empty_set with end
          | inl row =>
              match uuid_column rl with
              | Some c =>
                  if bool_decide (c = "") then Ok (ARow row)
                  else
                    rows_ ← getattr row c;
                    n ← py_len rows_;
                    if bool_decide (n ≠ 1%nat)
                    then Raise (RowNotFound table_ "record" record)
                    else py_getitem rows_ (AInt 0)
              | None => Ok (ARow row)
              end
          end
      end
  end.

(** idlutils.py, lines 66-100. *)
Definition row_by_record (idl_ : Idl) (table_ : string) (record : value)
  : result atom :=
  t ← get_table idl_ table_;
  match direct_lookup t record with
  | Ok r => Ok (ARow r)
  | Raise (ValueError _) => lookup_by_strategy idl_ table_ t record
  | Raise KeyError =>
      if bool_decide (sys_platform ≠ "win32")
      then Raise (RowNotFound table_ "uuid" record)
      else lookup_by_strategy idl_ table_ t record
  | Raise e => Raise e
  end.

End WithEnvironment.

End Resolver.

(** ** idlutils.py: db_replace_record *)

Module Replace.

(** Python objects as [db_replace_record] sees them.  Dicts, lists and class
    instances are mutable and live in a store; a [pyval] refers to them by
    address, so that a mutation is seen through every alias.  Tuples and
    strings are immutable values. *)
Definition loc := positive.

#[local] Unset Elimination Schemes.
Inductive pyval :=
| PNone
| PInt (z : Z)
| PStr (s : string)
| PTuple (items : list pyval)
| PRef (l : loc).
#[local] Set Elimination Schemes.

(** An instance is an [api.Command] or some other object, and may or may
    not have a [result] attribute. *)
Inductive pyobj :=
| ODict (items : list (pyval * pyval))
| OList (items : list pyval)
| OInstance (is_command : bool) (result_attr : option pyval).

Abbreviation heap := (gmap loc pyobj).

(** [isinstance(v, api.Command)] *)
Definition is_Command (h : heap) (v : pyval) : bool :=
  match v with
  | PRef l => match h !! l with
              | Some (OInstance true _) => true
              | _ => false
              end
  | _ => false
  end.

(** [v.result] *)
Definition get_result (h : heap) (v : pyval) : result pyval :=
  match v with
  | PRef l => match h !! l with
              | Some (OInstance _ (Some r)) => Ok r
              | _ => Raise AttributeError
              end
  | _ => Raise AttributeError
  end.

(** [getattr(v, "result", v)] *)
Definition result_or_self (h : heap) (v : pyval) : pyval :=
  match get_result h v with
  | Ok r => r
  | Raise _ => v
  end.

(** [obj[k] = r] on the dict at [l], for the key of its [i]-th item (the
    keys of a dict are distinct). *)
Definition setitem_dict (h : heap) (l : loc) (i : nat) (k r : pyval) : heap :=
  match h !! l with
  | Some (ODict items) => <[l := ODict (<[i := (k, r)]> items)]> h
  | _ => h
  end.

(** [obj[i] = r] on the list at [l]. *)
Definition setitem_list (h : heap) (l : loc) (i : nat) (r : pyval) : heap :=
  match h !! l with
  | Some (OList items) => <[l := OList (<[i := r]> items)]> h
  | _ => h
  end.

(** Lines 269-271: the loop over the items of a mapping, from item [i] on. *)
Fixpoint replace_in_dict (h : heap) (l : loc) (i : nat)
    (todo : list (pyval * pyval)) : result unit * heap :=
  match todo with
  | [] => (Ok (), h)
  | (k, v) :: todo' =>
      if is_Command h v then
        match get_result h v with
        | Ok r => replace_in_dict (setitem_dict h l i k r) l (S i) todo'
        | Raise e => (Raise e, h)
        end
      else replace_in_dict h l (S i) todo'
  end.

(** Lines 274-277: the loop over the elements of a list, from index [i]
    on. *)
Fixpoint replace_in_list (h : heap) (l : loc) (i : nat) (todo : list pyval)
  : result unit * heap :=
  match todo with
  | [] => (Ok (), h)
  | v :: todo' =>
      if is_Command h v then
        match get_result h v with
        | Ok r => replace_in_list (setitem_list h l i r) l (S i) todo'
        | Raise e => (Raise e, h)
        end
      else replace_in_list h l (S i) todo'
  end.

(** Lines 274-281 on a tuple [obj]: at the first Command the item
    assignment raises [TypeError] (after [v.result] has been read) and a new
    tuple is built. *)
Fixpoint replace_in_tuple (h : heap) (obj todo : list pyval) : result pyval :=
  match todo with
  | [] => Ok (PTuple obj)
  | v :: todo' =>
      if is_Command h v then
        _ ← get_result h v;
        Ok (PTuple (map (result_or_self h) obj))
      else replace_in_tuple h obj todo'
  end.

(** idlutils.py, lines 262-284: the returned value (or exception) and the
    store afterwards, on an interpreter that still has
    [collections.Mapping] and [collections.Sequence]. *)
Definition db_replace_record (h : heap) (obj : pyval) : result pyval * heap :=
  match obj with
  | PRef l =>
      match h !! l with
      | Some (ODict items) =>
          let '(r, h') := replace_in_dict h l 0 items in
          (_ ← r; Ok obj, h')
      | Some (OList items) =>
          let '(r, h') := replace_in_list h l 0 items in
          (_ ← r; Ok obj, h')
      | Some (OInstance true _) => (get_result h obj, h)
      | _ => (Ok obj, h)
      end
  | PTuple items => (replace_in_tuple h items items, h)
  | _ => (Ok obj, h)
  end.

End Replace.

(** ** transaction.py: Transaction.do_commit *)

Module Commit.

(** The statuses of [idl.Transaction.commit_block()] that [do_commit] tells
    apart; any other value is [UNKNOWN]. *)
Inductive status :=
| TRY_AGAIN | ERROR | NOT_LOCKED | ABORTED | UNCHANGED | SUCCESS
| UNKNOWN (name : string).

(** What [do_commit] does to the outside, in order: its calls to the clock,
    to the IDL, to the transaction handle and to the commands, and its log
    records (debug records by their format string). *)
Inductive event :=
| EvTime (t : Z)
| EvNewTxn
| EvRunIdl (idx : nat)
| EvAbort
| EvCommitBlock (s : status)
| EvIdlRun
| EvPostCommit (idx : nat)
| LogDebug (msg : string)
| LogError (msg : string).

(** [do_commit] returns a list of results or [None], or raises. *)
Inductive outcome (Res : Type) :=
| Returned (r : option (list Res))
| Raised (e : pyexn).
Arguments Returned {Res} r.
Arguments Raised {Res} e.

Definition NOT_LOCKED_msg : string :=
  ("The transaction failed because the IDL has " ++
   "been configured to require a database lock " ++
   "but didn't get it yet or has already lost it")%string.

Section WithCollaborators.

(** [W] is the state of everything outside the Transaction object: the
    clock, the IDL, the transaction handles and the attributes of the
    commands.  [Cmd] and [Txn] are references to a command and to a
    transaction handle.  Timestamps and the timeout are integers, in some
    fixed unit of time: only their differences and their order are used. *)
Context {W Cmd Txn Res : Type}.

Variable time_time : W -> Z * W.
Variable new_txn : W -> Txn * W.
Variable run_idl : Cmd -> Txn -> W -> option pyexn * W.
Variable txn_abort : Txn -> W -> W.
Variable commit_block : Txn -> W -> status * W.
Variable get_error : Txn -> W -> string.
Variable idl_run : W -> W.
Variable cmd_post_commit : Cmd -> Txn -> W -> option pyexn * W.
Variable cmd_result : Cmd -> W -> Res.

Record Transaction := {
  check_error : bool;
  log_errors : bool;
  commands : list Cmd;
  timeout : Z
}.

Record state := {
  world : W;
  trace : list event;
  start_time : Z
}.

(** transaction.py, lines 42-49: the command is appended and returned. *)
Definition add (self : Transaction) (command : Cmd) : Cmd * Transaction :=
  (command,
   {| check_error := check_error self; log_errors := log_errors self;
      commands := commands self ++ [command]; timeout := timeout self |}).

Definition emit (e : event) (st : state) : state :=
  {| world := world st; trace := trace st ++ [e];
     start_time := start_time st |}.

Definition with_world (w : W) (st : state) : state :=
  {| world := w; trace := trace st; start_time := start_time st |}.

Variable self : Transaction.

(** [time.time()] *)
Definition now (st : state) : Z * state :=
  let '(t, w) := time_time (world st) in
  (t, emit (EvTime t) (with_world w st)).

(** transaction.py, lines 137-138. *)
Definition elapsed_time (st : state) : Z * state :=
  let '(t, st) := now st in (t - start_time st, st).

(** transaction.py, lines 140-141. *)
Definition time_remaining (st : state) : Z * state :=
  let '(e, st) := elapsed_time st in (timeout self - e, st).

(** transaction.py, lines 143-144. *)
Definition timeout_exceeded (st : state) : bool * state :=
  let '(e, st) := elapsed_time st in (timeout self <? e, st).

(** transaction.py, lines 65-66. *)
Definition pre_commit (txn : Txn) (st : state) : state := st.

(** transaction.py, lines 68-70; an exception of a command's
    [post_commit] ends the loop and propagates. *)
Fixpoint post_commit_from (idx : nat) (cmds : list Cmd) (txn : Txn)
    (st : state) : option pyexn * state :=
  match cmds with
  | [] => (None, st)
  | command :: cmds' =>
      let '(e, w) := cmd_post_commit command txn (world st) in
      let st := emit (EvPostCommit idx) (with_world w st) in
      match e with
      | Some ex => (Some ex, st)
      | None => post_commit_from (S idx) cmds' txn st
      end
  end.

Definition post_commit (txn : Txn) (st : state) : option pyexn * state :=
  post_commit_from 0 (commands self) txn st.

(** Lines 84-93 of [do_commit]: the loop that applies the commands. *)
Fixpoint run_commands (idx : nat) (cmds : list Cmd) (txn : Txn)
    (st : state) : option pyexn * state :=
  match cmds with
  | [] => (None, st)
  | command :: cmds' =>
      let st :=
        emit (LogDebug "Running txn n=%(n)d command(idx=%(idx)s): %(cmd)s")
             st in
      let '(e, w) := run_idl command txn (world st) in
      let st := emit (EvRunIdl idx) (with_world w st) in
      match e with
      | None => run_commands (S idx) cmds' txn st
      | Some ex =>
          let st := emit EvAbort (with_world (txn_abort txn (world st)) st) in
          if check_error self then (Some ex, st)
          else run_commands (S idx) cmds' txn st
      end
  end.

(** Line 135: [[cmd.result for cmd in self.commands]]. *)
Definition results (st : state) : list Res :=
  map (fun cmd => cmd_result cmd (world st)) (commands self).

(** Lines 96-135 of [do_commit]: what is done with the status of the
    commit.  [None] stands for [continue]. *)
Definition dispatch (status_ : status) (txn : Txn) (st : state)
  : option (outcome Res) * state :=
  match status_ with
  | TRY_AGAIN =>
      let st :=
        emit (LogDebug "OVSDB transaction returned TRY_AGAIN, retrying") st in
      let st := emit EvIdlRun (with_world (idl_run (world st)) st) in
      (None, st)
  | ERROR | NOT_LOCKED =>
      let msg := "OVSDB Error: " in
      let msg :=
        match status_ with
        | NOT_LOCKED => (msg ++ NOT_LOCKED_msg)%string
        | _ => (msg ++ get_error txn (world st))%string
        end in
      let st := if log_errors self then emit (LogError msg) st else st in
      if check_error self then (Some (Raised (RuntimeError msg)), st)
      else (Some (Returned None), st)
  | ABORTED =>
      let st := emit (LogDebug "Transaction aborted") st in
      (Some (Returned None), st)
  | UNCHANGED =>
      let st := emit (LogDebug "Transaction caused no change") st in
      (Some (Returned (Some (results st))), st)
  | SUCCESS =>
      let '(e, st) := post_commit txn st in
      match e with
      | Some ex => (Some (Raised ex), st)
      | None => (Some (Returned (Some (results st))), st)
      end
  | UNKNOWN _ =>
      let st :=
        emit (LogDebug "Transaction returned an unknown status: %s") st in
      (Some (Returned (Some (results st))), st)
  end.

(** How far one iteration gets before the status of the commit is looked
    at: an exception leaves [do_commit], or the handle has reported a
    status. *)
Inductive attempt_result :=
| Failed (e : pyexn) (st : state)
| Committed (status_ : status) (txn : Txn) (st : state).

(** Lines 76-95 of [do_commit]: one iteration of the loop up to
    [txn.commit_block()], entered with [attempts] attempts made so far. *)
Definition attempt (attempts : nat) (st : state) : attempt_result :=
  let '(exceeded, st) :=
    if (0 <? attempts)%nat then timeout_exceeded st else (false, st) in
  if exceeded : bool
  then Failed (RuntimeError "OVS transaction timed out") st
  else
    let '(txn, w) := new_txn (world st) in
    let st := emit EvNewTxn (with_world w st) in
    let st := pre_commit txn st in
    let '(e, st) := run_commands 0 (commands self) txn st in
    match e with
    | Some ex => Failed ex st
    | None =>
        let '(status_, w) := commit_block txn (world st) in
        Committed status_ txn (emit (EvCommitBlock status_) (with_world w st))
    end.

(** Lines 75-135 of [do_commit]: the [while True] loop.  The loop need not
    end; [fuel] bounds the number of iterations and [None] says that it
    ran out. *)
Fixpoint commit_loop (fuel : nat) (attempts : nat) (st : state)
  : option (outcome Res) * state :=
  match fuel with
  | O => (None, st)
  | S fuel' =>
      match attempt attempts st with
      | Failed ex st => (Some (Raised ex), st)
      | Committed status_ txn st =>
          match dispatch status_ txn st with
          | (None, st) => commit_loop fuel' (S attempts) st
          | (Some out, st) => (Some out, st)
          end
      end
  end.

(** transaction.py, lines 72-135, started in the world [w]. *)
Definition do_commit (fuel : nat) (w : W) : option (outcome Res) * state :=
  let '(t, w) := time_time w in
  commit_loop fuel 0 {| world := w; trace := [EvTime t]; start_time := t |}.

End WithCollaborators.

End Commit.

(** ** Predicates and sample data used in the statements *)

Module Samples.
Import Idlutils.

(** The operand key [k] is in the value [dv] with a different (resp. an
    equal) value than in the operand [d]. *)
Definition key_differs (d dv : list (atom * atom)) (k : atom) : bool :=
  match dict_get d k, dict_get dv k with
  | Some v, Some v' => negb (atom_eqb v v')
  | _, _ => false
  end.

Definition key_agrees (d dv : list (atom * atom)) (k : atom) : bool :=
  match dict_get d k, dict_get dv k with
  | Some v, Some v' => atom_eqb v v'
  | _, _ => false
  end.

(** The operand shapes on which [=] and [!=] are complements: scalars;
    sequences when one side is empty or when the operand's elements are all
    in the value or all outside of it; non-empty maps whose keys all agree
    or all differ. *)
Definition complement_shape (match_ val : value) : Prop :=
  match match_, val with
  | VList l, VList lv =>
      l = [] ∨ lv = [] ∨
      (∀ e, e ∈ l → list_mem e lv = true) ∨
      (∀ e, e ∈ l → list_mem e lv = false)
  | VDict d, VDict dv =>
      d ≠ [] ∧
      ((∀ k, k ∈ map fst d → key_agrees d dv k = true) ∨
       (∀ k, k ∈ map fst d → key_differs d dv k = true))
  | VList _, _ | VDict _, _ => False
  | _, _ => True
  end.

(** A table with a map column, a set column and an optional column, none of
    them indexed. *)
Definition port_columns : gmap string ColumnType :=
  list_to_map [
    ("external_ids", {| is_optional := false |});
    ("trunks", {| is_optional := false |});
    ("tag", {| is_optional := true |})
  ].

(** A row with [external_ids = {"a": 1, "b": 3}], [trunks = [1, 3]] and no
    [tag]. *)
Definition port_row : Row :=
  MkRow (MkUUID 7) port_columns
    (list_to_map [
       ("external_ids", VDict [(AStr KStr "a", AInt 1); (AStr KStr "b", AInt 3)]);
       ("trunks", VList [AInt 1; AInt 3]);
       ("tag", VList [])
     ]).

(** The operand [{"a": 1, "b": 2}]: key ["a"] agrees with [port_row], key
    ["b"] differs. *)
Definition ids_a1_b2 : value :=
  VDict [(AStr KStr "a", AInt 1); (AStr KStr "b", AInt 2)].

(** A stand-in for [uuid.UUID(s)] on sample data: it accepts 32 hexadecimal
    digits, with dashes anywhere between them, and nothing else. *)
Definition hex_digit (a : ascii) : option Z :=
  let n := Z.of_N (Ascii.N_of_ascii a) in
  if (48 <=? n) && (n <=? 57) then Some (n - 48)
  else if (97 <=? n) && (n <=? 102) then Some (n - 87)
  else if (65 <=? n) && (n <=? 70) then Some (n - 55)
  else None.

Fixpoint hex_digits (s : string) (count : nat) (acc : Z) : option (nat * Z) :=
  match s with
  | EmptyString => Some (count, acc)
  | String a s' =>
      if bool_decide (a = "-"%char) then hex_digits s' count acc
      else match hex_digit a with
           | Some d => hex_digits s' (S count) (16 * acc + d)
           | None => None
           end
  end.

Definition sample_uuid_UUID (s : string) : option UUID :=
  match hex_digits s 0 0 with
  | Some (n, z) => if bool_decide (n = 32%nat) then Some (MkUUID z) else None
  | None => None
  end.

Import Resolver.

Definition ssl_row : Row :=
  MkRow (MkUUID 1) ∅ (list_to_map [("private_key", VAtom (AStr KStr "key.pem"))]).

(** The single [Open_vSwitch] row, which refers to [ssl_row]. *)
Definition ovs_row : Row :=
  MkRow (MkUUID 2) ∅ (list_to_map [("ssl", VList [ARow ssl_row])]).

Definition queue_row : Row :=
  MkRow (MkUUID 3) ∅ (list_to_map [("dscp", VList [AInt 10])]).

Definition bridge_row : Row :=
  MkRow (MkUUID 4) ∅ (list_to_map [("name", VAtom (AStr KStr "br-int"))]).

Definition sample_idl : Idl :=
  {| tables := list_to_map [
       ("SSL", {| indexes := []; rows := [(MkUUID 1, ssl_row)] |});
       ("Open_vSwitch", {| indexes := []; rows := [(MkUUID 2, ovs_row)] |});
       ("Queue", {| indexes := []; rows := [(MkUUID 3, queue_row)] |});
       ("Bridge", {| indexes := [["name"]]; rows := [(MkUUID 4, bridge_row)] |})
     ] |}.

(** What a record stands for when it is, or parses as, a UUID. *)
Definition record_uuid (uuid_UUID : string → option UUID) (record : value)
  : option UUID :=
  match record with
  | VAtom (AUuid u) => Some u
  | VAtom (AStr _ s) => uuid_UUID s
  | _ => None
  end.

Import Replace.

(** A mapping value or a sequence element of [obj] is a Command. *)
Definition contains_Command (h : heap) (obj : pyval) : bool :=
  match obj with
  | PRef l =>
      match h !! l with
      | Some (ODict items) => existsb (λ kv, is_Command h (snd kv)) items
      | Some (OList items) => existsb (is_Command h) items
      | _ => false
      end
  | PTuple items => existsb (is_Command h) items
  | _ => false
  end.

(** Every Command among [vs] has a [result] attribute. *)
Definition commands_have_result (h : heap) (vs : list pyval) : Prop :=
  ∀ v, v ∈ vs → is_Command h v = true → ∃ r, get_result h v = Ok r.

(** A Command gives way to its result, anything else stays. *)
Definition replaced (h : heap) (v : pyval) : pyval :=
  if is_Command h v then result_or_self h v else v.

(** A store with two commands, at 1 with result 10 and at 2 with result
    20, an object that is not a command at 3, the list [[cmd1, 5, cmd2]] at
    4 and the dict [{"x": cmd1, "y": 6}] at 5. *)
Definition sample_heap : heap :=
  list_to_map [
    (1%positive, OInstance true (Some (PInt 10)));
    (2%positive, OInstance true (Some (PInt 20)));
    (3%positive, OInstance false None);
    (4%positive, OList [PRef 1%positive; PInt 5; PRef 2%positive]);
    (5%positive, ODict [(PStr "x", PRef 1%positive); (PStr "y", PInt 6)])
  ].

Import Commit.

Definition is_time (e : event) : bool :=
  match e with
  | EvTime _ => true
  | _ => false
  end.

Definition is_new_txn (e : event) : bool :=
  match e with
  | EvNewTxn => true
  | _ => false
  end.

(** No event of [evs] is a reading of the clock. *)
Definition quiet (evs : list event) : bool :=
  forallb (λ e, negb (is_time e)) evs.

(** Every reading of the clock in [evs] is within the deadline. *)
Definition calm (timeout t0 : Z) (evs : list event) : bool :=
  forallb (λ e, match e with
                | EvTime t => negb (timeout <? t - t0)
                | _ => true
                end) evs.

(** In the events [tr], which follow the start of the first attempt at
    time [t0], nothing at all comes after a reading of the clock that is
    past the deadline. *)
Fixpoint stops_at_deadline (timeout t0 : Z) (tr : list event) : bool :=
  match tr with
  | [] => true
  | EvTime t :: tr' =>
      if timeout <? t - t0
      then match tr' with [] => true | _ => false end
      else stops_at_deadline timeout t0 tr'
  | _ :: tr' => stops_at_deadline timeout t0 tr'
  end.

(** In the events [tr], no transaction handle is opened after a reading of
    the clock that is past the deadline. *)
Fixpoint no_retry_past_deadline (timeout t0 : Z) (tr : list event) : bool :=
  match tr with
  | [] => true
  | EvTime t :: tr' =>
      if timeout <? t - t0
      then forallb (λ e, negb (is_new_txn e)) tr'
      else no_retry_past_deadline timeout t0 tr'
  | _ :: tr' => no_retry_past_deadline timeout t0 tr'
  end.

(** [st'] comes from [st] by appending the events [evs] to the trace. *)
Definition appends {W} (st st' : state (W:=W)) (evs : list event) : Prop :=
  trace st' = trace st ++ evs ∧ start_time st' = start_time st.

(** The state in which an iteration of the loop hands over. *)
Definition attempt_state {W Txn} (r : attempt_result (W:=W) (Txn:=Txn))
  : state (W:=W) :=
  match r with
  | Failed _ st => st
  | Committed _ _ st => st
  end.

(** A mock of the collaborators: the clock advances by [tick] at every
    reading, the handle reports the statuses of a script, one per commit,
    and [SUCCESS] when the script is over; commands are numbers, the result
    of command [c] is [c] before its post-commit step and [c + 100] after
    it. *)
Record mock := {
  clock : Z;
  tick : Z;
  script : list status;
  finalized : list Z
}.

Definition mock_time (w : mock) : Z * mock :=
  (clock w, {| clock := clock w + tick w; tick := tick w;
               script := script w; finalized := finalized w |}).

Definition mock_new_txn (w : mock) : unit * mock := (tt, w).

Definition mock_run_idl (c : Z) (txn : unit) (w : mock) : option pyexn * mock :=
  (None, w).

Definition mock_abort (txn : unit) (w : mock) : mock := w.

Definition mock_commit_block (txn : unit) (w : mock) : status * mock :=
  match script w with
  | [] => (SUCCESS, w)
  | s :: rest => (s, {| clock := clock w; tick := tick w; script := rest;
                        finalized := finalized w |})
  end.

Definition mock_get_error (txn : unit) (w : mock) : string :=
  "constraint violation".

Definition mock_idl_run (w : mock) : mock := w.

Definition mock_post_commit (c : Z) (txn : unit) (w : mock)
  : option pyexn * mock :=
  (None, {| clock := clock w; tick := tick w; script := script w;
            finalized := c :: finalized w |}).

Definition mock_result (c : Z) (w : mock) : Z :=
  if existsb (Z.eqb c) (finalized w) then c + 100 else c.

Definition mock_txn (check log : bool) : Transaction (Cmd:=Z) :=
  {| check_error := check; log_errors := log; commands := [1; 2];
     timeout := 5 |}.

Definition mock_state (w : mock) (t0 : Z) : state (W:=mock) :=
  {| world := w; trace := [EvTime t0]; start_time := t0 |}.

End Samples.

(** ** idlutils.py: wait_for_change *)

Module Waiting.

(** [wait_for_change] returns [None] or raises [Exception(msg)]. *)
Inductive wait_outcome :=
| WaitReturned
| WaitRaised (msg : string).

Section WithIdl.

(** [W] is the state of the IDL, of its event loop and of the clock.
    [idl_run] is [_idl.run()], which tells whether the IDL changed;
    [poll_block ms] stands for lines 140-143: a poller is made, the IDL
    registers with it, a timer of [ms] milliseconds is set and the poller
    blocks.  Times are integers, as in the commit loop. *)
Context {W : Type}.

Variable change_seqno : W -> Z.
Variable idl_run : W -> bool * W.
Variable poll_block : Z -> W -> W.
Variable time_time : W -> Z * W.

(** Lines 139-145: the [while] loop; [fuel] bounds its iterations. *)
Fixpoint wait_loop (fuel : nat) (timeout seqno stop : Z) (w : W)
  : option wait_outcome * W :=
  match fuel with
  | O => (None, w)
  | S fuel' =>
      if change_seqno w =? seqno then
        let '(changed, w) := idl_run w in
        if changed : bool then (Some WaitReturned, w)
        else
          let w := poll_block (timeout * 1000) w in
          let '(t, w) := time_time w in
          if stop <? t then (Some (WaitRaised "Timeout"), w)
          else wait_loop fuel' timeout seqno stop w
      else (Some WaitReturned, w)
  end.

(** idlutils.py, lines 135-145. *)
Definition wait_for_change (fuel : nat) (timeout : Z) (seqno : option Z)
    (w : W) : option wait_outcome * W :=
  let seqno := match seqno with
               | None => change_seqno w
               | Some s => s
               end in
  let '(t, w) := time_time w in
  let stop := t + timeout in
  wait_loop fuel timeout seqno stop w.

End WithIdl.

End Waiting.

(** ** More predicates and sample data *)

Module MoreSamples.
Import Idlutils Resolver Replace Commit Samples.

(** What [==] compares on a scalar: its kind, with [bool] and [int]
    together, and its content. *)
Inductive atom_class :=
| KNumber (z : Z)
| KText (s : string)
| KUuid (z : Z)
| KRow (z : Z).

Definition atom_key (a : atom) : atom_class :=
  match a with
  | ABool b => KNumber (Z.b2z b)
  | AInt z => KNumber z
  | AStr _ s => KText s
  | AUuid u => KUuid (uuid_int u)
  | ARow r => KRow (uuid_int (row_uuid r))
  end.

Global Instance atom_class_eq_dec : EqDecision atom_class.
Proof. solve_decision. Defined.

Definition is_row (a : atom) : bool :=
  match a with
  | ARow _ => true
  | _ => false
  end.

(** The value of column [column_] of [r] is there and is not [match_]. *)
Definition differs_on (column_ : string) (match_ : value) (r : Row) : Prop :=
  ∃ v, getattr r column_ = Ok v ∧ py_eq v match_ = false.

Definition is_run (e : event) : bool :=
  match e with
  | EvRunIdl _ => true
  | _ => false
  end.

Definition is_commit_block (e : event) : bool :=
  match e with
  | EvCommitBlock _ => true
  | _ => false
  end.

(** No event of [evs] is a commit. *)
Definition nocommit (evs : list event) : bool :=
  forallb (λ e, negb (is_commit_block e)) evs.

(** The status of the last commit in a trace. *)
Fixpoint last_status (tr : list event) : option status :=
  match tr with
  | [] => None
  | e :: tr' =>
      match last_status tr' with
      | Some s => Some s
      | None => match e with
                | EvCommitBlock s => Some s
                | _ => None
                end
      end
  end.

Definition timed_out : pyexn := RuntimeError "OVS transaction timed out".

(** A port named ["eth0"] with one QoS row, and the tables around it. *)
Definition qos_row : Row :=
  MkRow (MkUUID 11) ∅ (list_to_map [("type", VAtom (AStr KStr "linux-htb"))]).

Definition eth0_row : Row :=
  MkRow (MkUUID 12)
    (list_to_map [("qos", {| is_optional := true |});
                  ("interfaces", {| is_optional := false |})])
    (list_to_map [("name", VAtom (AStr KStr "eth0"));
                  ("qos", VList [ARow qos_row]);
                  ("interfaces", VList [ARow bridge_row; ARow queue_row])]).

Definition eth1_row : Row :=
  MkRow (MkUUID 13)
    (list_to_map [("qos", {| is_optional := true |})])
    (list_to_map [("name", VAtom (AStr KStr "eth1")); ("qos", VList [])]).

Definition port_table : Table :=
  {| indexes := [["name"]];
     rows := [(MkUUID 13, eth1_row); (MkUUID 12, eth0_row)] |}.

Definition qos_table : Table :=
  {| indexes := []; rows := [(MkUUID 11, qos_row)] |}.

(** A table with two indexes, so with no index column for the resolver. *)
Definition manager_row : Row :=
  MkRow (MkUUID 14) ∅ (list_to_map [("target", VAtom (AStr KStr "ptcp:6640"))]).

Definition manager_table : Table :=
  {| indexes := [["target"]; ["target"; "is_connected"]];
     rows := [(MkUUID 14, manager_row)] |}.

Definition port_idl : Idl :=
  {| tables := list_to_map [("Port", port_table); ("QoS", qos_table);
                            ("Manager", manager_table)] |}.

(** A store in which the list at 4 is [[cmd1, cmd3, cmd2]] and the command
    at 3 has no [result] attribute. *)
Definition broken_heap : heap :=
  list_to_map [
    (1%positive, OInstance true (Some (PInt 10)));
    (2%positive, OInstance true (Some (PInt 20)));
    (3%positive, OInstance true None);
    (4%positive, OList [PRef 1%positive; PRef 3%positive; PRef 2%positive])
  ].

(** A handle that always asks to try again, and a command (number 2) whose
    [run_idl] raises. *)
Definition stuck_commit_block (txn : unit) (w : mock) : status * mock :=
  (TRY_AGAIN, w).

Definition failing_run_idl (c : Z) (txn : unit) (w : mock)
  : option pyexn * mock :=
  (if c =? 2 then Some KeyError else None, w).

Definition mock_world (t dt : Z) (statuses : list status) : mock :=
  {| clock := t; tick := dt; script := statuses; finalized := [] |}.

(** A mock of the IDL for [wait_for_change]: the clock advances by one at
    every reading, [_idl.run()] reports a change once [pending] polls have
    been made. *)
Record wait_mock := {
  wclock : Z;
  wseqno : Z;
  pending : nat
}.

Definition wmock_seqno (w : wait_mock) : Z := wseqno w.

Definition wmock_run (w : wait_mock) : bool * wait_mock :=
  match pending w with
  | O => (true, {| wclock := wclock w; wseqno := wseqno w + 1; pending := O |})
  | S _ => (false, w)
  end.

Definition wmock_poll (ms : Z) (w : wait_mock) : wait_mock :=
  {| wclock := wclock w; wseqno := wseqno w; pending := Nat.pred (pending w) |}.

Definition wmock_time (w : wait_mock) : Z * wait_mock :=
  (wclock w, {| wclock := wclock w + 1; wseqno := wseqno w;
                pending := pending w |}).

End MoreSamples.

(** * Properties *)

(** ** The condition evaluator *)

Section ConditionMatch.
Import Idlutils Samples.

Lemma atom_eqb_refl a : atom_eqb a a = true.
Proof.
  destruct a; simpl.
  - by destruct b.
  - apply Z.eqb_refl.
  - by apply bool_decide_eq_true_2.
  - apply Z.eqb_refl.
  - apply Z.eqb_refl.
Qed.

Lemma dict_get_fst d k : k ∈ map fst d → is_Some (dict_get d k).
Proof.
  induction d as [|[k' v] d IH]; simpl.
  - by intros ?%elem_of_nil.
  - intros [->|Hin]%elem_of_cons.
    + rewrite atom_eqb_refl. by eexists.
    + destruct (atom_eqb k k'); [by eexists | by apply IH].
Qed.

Lemma op_eq_true : bool_decide ("=" = "=") = true.
Proof. reflexivity. Qed.

Lemma op_ne_not_eq : bool_decide ("!=" = "=") = false.
Proof. reflexivity. Qed.

Lemma op_ne_true : bool_decide ("!=" = "!=") = true.
Proof. reflexivity. Qed.

(** The loop over a map operand, against a map value. *)
Lemma match_dict_ne d dv keys :
  (∀ k, k ∈ keys → is_Some (dict_get d k)) →
  match_dict "!=" d (VDict dv) keys = Ok (forallb (key_differs d dv) keys).
Proof.
  induction keys as [|k keys IH]; intros Hk; [done|].
  cbn [match_dict forallb]. rewrite op_ne_not_eq, op_ne_true.
  destruct (Hk k) as [v Hv]; [by left|].
  unfold key_differs at 1. cbn [py_contains py_getitem]. unfold dict_mem.
  rewrite Hv.
  destruct (dict_get dv k) as [v'|]; cbn.
  - destruct (atom_eqb v v'); cbn; [done|].
    apply IH. intros k' Hk'. apply Hk. by right.
  - done.
Qed.

Lemma match_dict_eq d dv keys :
  (∀ k, k ∈ keys → is_Some (dict_get d k)) →
  match_dict "=" d (VDict dv) keys = Ok (forallb (key_agrees d dv) keys).
Proof.
  induction keys as [|k keys IH]; intros Hk; [done|].
  cbn [match_dict forallb]. rewrite op_eq_true.
  destruct (Hk k) as [v Hv]; [by left|].
  unfold key_agrees at 1. cbn [py_contains py_getitem]. unfold dict_mem.
  rewrite Hv.
  destruct (dict_get dv k) as [v'|]; cbn.
  - destruct (atom_eqb v v'); cbn; [|done].
    apply IH. intros k' Hk'. apply Hk. by right.
  - done.
Qed.

(** With operand and value of the same type the check of lines 184-200
    changes nothing, whatever the column is. *)
Lemma check_types_same row col match_ val :
  type_of match_ = type_of val ∨ (is_string match_ = true ∧ is_string val = true) →
  check_types row col match_ val = Ok (match_, val).
Proof.
  intros H. unfold check_types.
  destruct H as [H|[H1 H2]].
  - by rewrite (bool_decide_eq_true_2 _ H).
  - rewrite H1, H2. cbn. by rewrite andb_false_r.
Qed.

Lemma condition_match_same_type row col op match_ val :
  get_column_value row col = Ok val →
  type_of match_ = type_of val ∨ (is_string match_ = true ∧ is_string val = true) →
  condition_match row (col, op, match_) = compare op match_ val.
Proof.
  intros Hv Ht. unfold condition_match. rewrite Hv. cbn.
  by rewrite (check_types_same _ _ _ _ Ht).
Qed.

Lemma forallb_key_differs d dv keys :
  forallb (key_differs d dv) keys = true ↔
  ∀ k, k ∈ keys →
    ∃ v v', dict_get d k = Some v ∧ dict_get dv k = Some v' ∧
            atom_eqb v v' = false.
Proof.
  rewrite forallb_forall. split.
  - intros H k Hk. specialize (H k). rewrite <- list_elem_of_In in H.
    specialize (H Hk). unfold key_differs in H.
    destruct (dict_get d k) as [v|]; [|done].
    destruct (dict_get dv k) as [v'|]; [|done].
    exists v, v'. by rewrite negb_true_iff in H.
  - intros H k Hk%list_elem_of_In.
    destruct (H k Hk) as (v & v' & Hv & Hv' & Hne).
    unfold key_differs. by rewrite Hv, Hv', Hne.
Qed.

(** C1 (amended): on a row whose column value is a map, a map operand with
    operator [!=] matches exactly when every key of the operand is in the
    value and is mapped there to a different value; one key that is missing
    from the value, or mapped to an equal value, makes the row not match. *)
Theorem map_ne_matches_iff_every_key_differs row col d dv :
  get_column_value row col = Ok (VDict dv) →
  condition_match row (col, "!=", VDict d)
    = Ok (forallb (key_differs d dv) (map fst d))
  ∧ (forallb (key_differs d dv) (map fst d) = true ↔
     ∀ k, k ∈ map fst d →
       ∃ v v', dict_get d k = Some v ∧ dict_get dv k = Some v' ∧
               atom_eqb v v' = false).
Proof.
  intros Hv. split; [|apply forallb_key_differs].
  rewrite (condition_match_same_type _ _ _ _ _ Hv) by by left.
  cbn [compare]. apply match_dict_ne. apply dict_get_fst.
Qed.

Lemma map_ne_matches_iff_every_key_differs_witness :
  condition_match port_row ("external_ids", "!=", ids_a1_b2) = Ok false.
Proof.
  exact (proj1 (map_ne_matches_iff_every_key_differs port_row "external_ids"
    [(AStr KStr "a", AInt 1); (AStr KStr "b", AInt 2)]
    [(AStr KStr "a", AInt 1); (AStr KStr "b", AInt 3)] eq_refl)).
Defined.

(** C1 as stated fails: [port_row] has [external_ids = {"a": 1, "b": 3}];
    the operand [{"a": 1, "b": 2}] differs from it on key ["b"], yet
    [!=] does not match, because key ["a"] agrees. *)
Lemma map_ne_partial_difference_counterexample :
  ¬ (∀ row col d dv,
       d ≠ [] →
       get_column_value row col = Ok (VDict dv) →
       (∃ k, k ∈ map fst d ∧ key_agrees d dv k = false) →
       condition_match row (col, "!=", VDict d) = Ok true).
Proof.
  intros H.
  specialize (H port_row "external_ids"
    [(AStr KStr "a", AInt 1); (AStr KStr "b", AInt 2)]
    [(AStr KStr "a", AInt 1); (AStr KStr "b", AInt 3)]).
  assert (Hf : condition_match port_row ("external_ids", "!=", ids_a1_b2)
               = Ok false) by reflexivity.
  unfold ids_a1_b2 in Hf. rewrite H in Hf; [discriminate|done|reflexivity|].
  exists (AStr KStr "b"). split; [|reflexivity].
  cbn. right. left.
Qed.

(** An operator other than [=] and [!=] is rejected whenever the loop over
    a map operand runs at least once, and for every other operand shape. *)
Lemma compare_unsupported op match_ val :
  op ≠ "=" → op ≠ "!=" → match_ ≠ VDict [] →
  compare op match_ val = Raise NotImplementedError.
Proof.
  intros H1 H2 Hm. unfold compare.
  destruct match_ as [|a|l|[|[k v] d]]; try done;
    cbn [map match_dict];
    by rewrite (bool_decide_eq_false_2 _ H1), (bool_decide_eq_false_2 _ H2).
Qed.

Lemma check_types_operand row col match_ val m' v' :
  check_types row col match_ val = Ok (m', v') →
  match_ ≠ VDict [] → m' ≠ VDict [].
Proof.
  unfold check_types. intros H Hm.
  repeat match type of H with
  | (if ?c then _ else _) = _ => destruct c
  | (_ ≫= _) = _ => destruct (column_type row col); cbn in H
  end; by simplify_eq.
Qed.

Lemma unsupported_operator_raises row col op match_ val m' v' :
  op ≠ "=" → op ≠ "!=" → match_ ≠ VDict [] →
  get_column_value row col = Ok val →
  check_types row col match_ val = Ok (m', v') →
  condition_match row (col, op, match_) = Raise NotImplementedError.
Proof.
  intros H1 H2 Hm Hv Hc. unfold condition_match. rewrite Hv. cbn.
  rewrite Hc. cbn. apply compare_unsupported; try done.
  by eapply check_types_operand.
Qed.

Lemma unsupported_operator_never_answers row col op match_ b :
  op ≠ "=" → op ≠ "!=" → match_ ≠ VDict [] →
  condition_match row (col, op, match_) ≠ Ok b.
Proof.
  intros H1 H2 Hm. unfold condition_match.
  destruct (get_column_value row col) as [val|e]; cbn; [|done].
  destruct (check_types row col match_ val) as [[m' v']|e] eqn:Hc; cbn;
    [|done].
  rewrite compare_unsupported; try done.
  by eapply check_types_operand.
Qed.

(** C3, the case the code misses: with an empty map operand the loop of
    lines 207-217 never runs, so an operator other than [=] and [!=] is not
    rejected and the row is reported as matching. *)
Theorem unsupported_operator_empty_map_matches row col op val :
  op ≠ "=" → op ≠ "!=" →
  get_column_value row col = Ok val →
  type_of val = TDict →
  condition_match row (col, op, VDict []) = Ok true.
Proof.
  intros _ _ Hv Ht.
  rewrite (condition_match_same_type _ _ _ _ _ Hv); [done|].
  left. by rewrite Ht.
Qed.

Lemma unsupported_operator_empty_map_matches_witness :
  condition_match port_row ("external_ids", "<", VDict []) = Ok true.
Proof.
  apply (unsupported_operator_empty_map_matches port_row "external_ids" "<"
           (VDict [(AStr KStr "a", AInt 1); (AStr KStr "b", AInt 3)]));
    [discriminate | discriminate | reflexivity | reflexivity].
Defined.

Lemma match_includes_list lv es :
  match_includes (VList lv) es = Ok (forallb (λ e, list_mem e lv) es).
Proof.
  induction es as [|e es IH]; [done|].
  cbn. destruct (list_mem e lv); cbn; [apply IH | done].
Qed.

Lemma match_excludes_list lv es :
  match_excludes (VList lv) es = Ok (forallb (λ e, negb (list_mem e lv)) es).
Proof.
  induction es as [|e es IH]; [done|].
  cbn. destruct (list_mem e lv); cbn; [done | apply IH].
Qed.

Lemma py_set_subset l e : e ∈ py_set l → e ∈ l.
Proof.
  induction l as [|x l IH]; cbn; [done|].
  intros [->|Hin]%elem_of_cons; [by left|].
  right. apply IH. by apply list_elem_of_filter in Hin as [_ ?].
Qed.

Lemma forallb_py_set (P : atom → bool) l :
  (∀ e, e ∈ l → P e = true) → forallb P (py_set l) = true.
Proof.
  intros H. apply forallb_forall. intros e He%list_elem_of_In.
  apply H. by apply py_set_subset.
Qed.

Lemma key_agrees_differs d dv k :
  key_agrees d dv k = true → key_differs d dv k = false.
Proof.
  unfold key_agrees, key_differs.
  destruct (dict_get d k), (dict_get dv k); try done.
  by intros ->.
Qed.

Lemma key_differs_agrees d dv k :
  key_differs d dv k = true → key_agrees d dv k = false.
Proof.
  unfold key_agrees, key_differs.
  destruct (dict_get d k), (dict_get dv k); try done.
  by intros ->%negb_true_iff.
Qed.

Lemma forallb_all (P : atom → bool) l :
  (∀ e, e ∈ l → P e = true) → forallb P l = true.
Proof.
  intros H. apply forallb_forall. intros e He%list_elem_of_In. by apply H.
Qed.

(** C7 (amended): when the operand has the type of the column value, [=]
    and [!=] on the same column and operand are complements, exactly one of
    them matching, for a scalar operand, for a sequence operand when the
    operand or the value is empty or when the operand's elements are all in
    the value or all outside of it, and for a non-empty map operand whose
    keys all agree or all differ with the value.  This holds whether or not
    the column is optional. *)
Theorem eq_ne_complements_on_shape row col match_ val :
  get_column_value row col = Ok val →
  type_of match_ = type_of val
    ∨ (is_string match_ = true ∧ is_string val = true) →
  complement_shape match_ val →
  ∃ b, condition_match row (col, "=", match_) = Ok b
       ∧ condition_match row (col, "!=", match_) = Ok (negb b).
Proof.
  intros Hv Ht Hs.
  rewrite !(condition_match_same_type _ _ _ _ _ Hv Ht).
  destruct match_ as [|a|l|d].
  - exists (py_eq val VNone). cbn. unfold py_ne. by rewrite negb_involutive.
  - exists (py_eq val (VAtom a)). cbn. unfold py_ne.
    by rewrite negb_involutive.
  - destruct val as [| |lv|]; try done.
    destruct l as [|x l].
    { exists (py_eq (VList lv) (VList [])). cbn.
      by rewrite andb_false_r. }
    destruct lv as [|y lv].
    { exists (py_eq (VList []) (VList (x :: l))). by cbn. }
    cbn [compare truthy andb negb].
    rewrite op_eq_true, op_ne_not_eq, op_ne_true.
    rewrite match_includes_list, match_excludes_list.
    destruct Hs as [?|[?|[Hall|Hnone]]]; try done.
    + exists true. split.
      * f_equal. by apply forallb_py_set.
      * f_equal. cbn [py_set forallb]. by rewrite (Hall x) by by left.
    + exists false. split.
      * f_equal. cbn [py_set forallb]. by rewrite (Hnone x) by by left.
      * f_equal. apply forallb_py_set. intros e He.
        by rewrite (Hnone e He).
  - destruct val as [| | |dv]; try done.
    destruct Hs as [Hne Hs].
    cbn [compare].
    rewrite match_dict_eq, match_dict_ne by apply dict_get_fst.
    destruct d as [|[k v] d]; [done|].
    destruct Hs as [Hall|Hall].
    + exists true. split.
      * f_equal. by apply forallb_all.
      * f_equal. cbn [map fst forallb].
        rewrite (key_agrees_differs _ _ k); [done|].
        apply Hall. by left.
    + exists false. split.
      * f_equal. cbn [map fst forallb].
        rewrite (key_differs_agrees _ _ k); [done|].
        apply Hall. by left.
      * f_equal. by apply forallb_all.
Qed.

Lemma eq_ne_complements_on_shape_witness :
  ∃ b, condition_match port_row ("trunks", "=", VList [AInt 1; AInt 3]) = Ok b
       ∧ condition_match port_row ("trunks", "!=", VList [AInt 1; AInt 3])
         = Ok (negb b).
Proof.
  apply (eq_ne_complements_on_shape port_row "trunks" _
           (VList [AInt 1; AInt 3])).
  - reflexivity.
  - left. reflexivity.
  - right. right. left. intros e He.
    apply elem_of_cons in He as [->|He]; [reflexivity|].
    apply elem_of_cons in He as [->|He]; [reflexivity|].
    by apply elem_of_nil in He.
Defined.

(** C7 as stated fails: the column [trunks] of [port_row] is not optional
    and holds [[1, 3]]; on the operand [[1, 2]], a list like the value,
    neither [=] (2 is missing) nor [!=] (1 is present) matches. *)
Lemma eq_ne_complement_counterexample :
  ¬ (∀ row col match_ val ct,
       column_type row col = Ok ct → is_optional ct = false →
       get_column_value row col = Ok val →
       type_of match_ = type_of val →
       ∃ b, condition_match row (col, "=", match_) = Ok b
            ∧ condition_match row (col, "!=", match_) = Ok (negb b)).
Proof.
  intros H.
  destruct (H port_row "trunks" (VList [AInt 1; AInt 2])
              (VList [AInt 1; AInt 3]) {| is_optional := false |})
    as (b & Heq & Hne); try reflexivity.
  assert (H1 : condition_match port_row ("trunks", "=", VList [AInt 1; AInt 2])
               = Ok false) by reflexivity.
  assert (H2 : condition_match port_row ("trunks", "!=", VList [AInt 1; AInt 2])
               = Ok false) by reflexivity.
  rewrite H1 in Heq. rewrite H2 in Hne.
  destruct b; discriminate.
Qed.

End ConditionMatch.

(** ** The record resolver *)

Section RecordResolver.
Import Idlutils Resolver Samples.

Variable uuid_UUID : string → option UUID.
Variable sys_platform : string.

Lemma rows_get_absent (rs : list (UUID * Row)) u :
  (∀ r, (u, r) ∉ rs) → rows_get rs u = Raise KeyError.
Proof.
  induction rs as [|[u' r'] rs IH]; intros H; [done|].
  cbn. case_bool_decide as Hu.
  - subst. exfalso. apply (H r'). by left.
  - apply IH. intros r Hr. apply (H r). by right.
Qed.

Lemma direct_lookup_not_a_uuid t k s :
  uuid_UUID s = None →
  ∃ msg, direct_lookup uuid_UUID t (VAtom (AStr k s)) = Raise (ValueError msg).
Proof. intros H. cbn. rewrite H. by eexists. Qed.

(** A record that is not a UUID goes to the lookup by strategy. *)
Lemma row_by_record_not_a_uuid idl_ table_ t k s :
  tables idl_ !! table_ = Some t →
  uuid_UUID s = None →
  row_by_record uuid_UUID sys_platform idl_ table_ (VAtom (AStr k s))
    = lookup_by_strategy idl_ table_ t (VAtom (AStr k s)).
Proof.
  intros Ht Hs. unfold row_by_record, get_table. rewrite Ht. cbn.
  by rewrite Hs.
Qed.

(** C2, what the code does: for a table whose lookup entry has no target
    table, a record that is not a UUID is rejected with [TypeError], raised
    by applying [%] to the [ValueError] object of line 91, and not with the
    [ValueError] that names the table. *)
Theorem uuid_only_table_raises_TypeError idl_ table_ rl t k s :
  _LOOKUP_TABLE !! table_ = Some rl →
  table rl = None →
  tables idl_ !! table_ = Some t →
  uuid_UUID s = None →
  row_by_record uuid_UUID sys_platform idl_ table_ (VAtom (AStr k s))
    = Raise TypeError.
Proof.
  intros Hrl Hnone Ht Hs.
  rewrite (row_by_record_not_a_uuid _ _ _ _ _ Ht Hs).
  unfold lookup_by_strategy. rewrite Hrl. cbn. by rewrite Hnone.
Qed.

(** C8: a record that is, or parses as, a UUID with no row in the table
    raises [RowNotFound] at once on every platform but ["win32"], where the
    resolution goes on with the lookup by strategy. *)
Theorem absent_uuid_fails_except_on_win32 idl_ table_ t record u :
  tables idl_ !! table_ = Some t →
  record_uuid uuid_UUID record = Some u →
  (∀ r, (u, r) ∉ rows t) →
  row_by_record uuid_UUID sys_platform idl_ table_ record
    = if bool_decide (sys_platform = "win32")
      then lookup_by_strategy idl_ table_ t record
      else Raise (RowNotFound table_ "uuid" record).
Proof.
  intros Ht Hu Habs. unfold row_by_record, get_table. rewrite Ht. cbn.
  assert (Hd : direct_lookup uuid_UUID t record = Raise KeyError).
  { destruct record as [|[]| |]; try done; cbn in Hu |- *.
    - rewrite Hu. by apply rows_get_absent.
    - simplify_eq. by apply rows_get_absent. }
  rewrite Hd. by repeat case_bool_decide.
Qed.

(** C10 (amended): for a table whose lookup entry names a target table but
    no column, a record that is not a UUID resolves to the first row of the
    table that is queried, whatever the record and whatever the target
    table of the entry; when the queried table has no row the resolution
    raises [StopIteration], which is neither [RowNotFound] nor any other
    [OvsdbAppException]. *)
Theorem singleton_lookup_returns_first_row idl_ table_ rl tgt t k s :
  _LOOKUP_TABLE !! table_ = Some rl →
  table rl = Some tgt →
  column rl = None →
  tables idl_ !! table_ = Some t →
  uuid_UUID s = None →
  row_by_record uuid_UUID sys_platform idl_ table_ (VAtom (AStr k s))
    = match rows t with
      | [] => Raise StopIteration
      | (_, r) :: _ => Ok (ARow r)
      end
  ∧ is_OvsdbAppException StopIteration = false
  ∧ ∀ tb c m, StopIteration ≠ RowNotFound tb c m.
Proof.
  intros Hrl Htgt Hcol Ht Hs. split; [|done].
  rewrite (row_by_record_not_a_uuid _ _ _ _ _ Ht Hs).
  unfold lookup_by_strategy. rewrite Hrl. cbn. rewrite Htgt, Hcol.
  by destruct (rows t) as [|[? ?] ?].
Qed.

End RecordResolver.

Section RecordResolverSamples.
Import Idlutils Resolver Samples.

Lemma uuid_only_table_raises_TypeError_witness :
  row_by_record sample_uuid_UUID "linux" sample_idl "Queue"
    (VAtom (AStr KStr "default-queue")) = Raise TypeError.
Proof.
  apply (uuid_only_table_raises_TypeError sample_uuid_UUID "linux" sample_idl
           "Queue" (Build_RowLookup None None None)
           {| indexes := []; rows := [(MkUUID 3, queue_row)] |});
    reflexivity.
Defined.

Lemma absent_uuid_fails_except_on_win32_witness :
  row_by_record sample_uuid_UUID "linux" sample_idl "Bridge"
    (VAtom (AStr KStr "00000000-0000-0000-0000-00000000002a"))
  = Raise (RowNotFound "Bridge" "uuid"
             (VAtom (AStr KStr "00000000-0000-0000-0000-00000000002a"))).
Proof.
  apply (absent_uuid_fails_except_on_win32 sample_uuid_UUID "linux" sample_idl
           "Bridge"
           {| indexes := [["name"]]; rows := [(MkUUID 4, bridge_row)] |}
           _ (MkUUID 42)).
  - reflexivity.
  - reflexivity.
  - intros r Hr. apply elem_of_cons in Hr as [Hr|Hr]; [discriminate|].
    by apply elem_of_nil in Hr.
Defined.

Lemma singleton_lookup_returns_first_row_witness :
  row_by_record sample_uuid_UUID "linux" sample_idl "SSL"
    (VAtom (AStr KStr "."))
  = Ok (ARow ssl_row)
  ∧ is_OvsdbAppException StopIteration = false
  ∧ ∀ tb c m, StopIteration ≠ RowNotFound tb c m.
Proof.
  apply (singleton_lookup_returns_first_row sample_uuid_UUID "linux"
           sample_idl "SSL"
           (Build_RowLookup (Some "Open_vSwitch") None (Some "ssl"))
           "Open_vSwitch"
           {| indexes := []; rows := [(MkUUID 1, ssl_row)] |});
    reflexivity.
Defined.

(** C10 as stated fails: the entry of ["SSL"] names the target table
    ["Open_vSwitch"] and no column; in [sample_idl] the first row of
    ["Open_vSwitch"] is [ovs_row], but resolving the record ["."] in
    ["SSL"] returns [ssl_row], the first row of ["SSL"] itself. *)
Lemma singleton_lookup_target_table_counterexample :
  ¬ (∀ uuid_UUID sys_platform idl_ table_ rl tgt tt k s u r rest,
       _LOOKUP_TABLE !! table_ = Some rl →
       table rl = Some tgt →
       column rl = None →
       tables idl_ !! tgt = Some tt →
       rows tt = (u, r) :: rest →
       uuid_UUID s = None →
       row_by_record uuid_UUID sys_platform idl_ table_ (VAtom (AStr k s))
         = Ok (ARow r)).
Proof.
  intros H.
  specialize (H sample_uuid_UUID "linux" sample_idl "SSL"
                (Build_RowLookup (Some "Open_vSwitch") None (Some "ssl"))
                "Open_vSwitch"
                {| indexes := []; rows := [(MkUUID 2, ovs_row)] |}
                KStr "." (MkUUID 2) ovs_row []).
  assert (Hssl : row_by_record sample_uuid_UUID "linux" sample_idl "SSL"
                   (VAtom (AStr KStr ".")) = Ok (ARow ssl_row))
    by reflexivity.
  rewrite Hssl in H.
  specialize (H eq_refl eq_refl eq_refl eq_refl eq_refl eq_refl).
  discriminate H.
Qed.

End RecordResolverSamples.

(** ** db_replace_record *)

Section ReplaceRecord.
Import Replace Samples.

Lemma replace_in_list_no_command (h : heap) l i todo :
  existsb (is_Command h) todo = false →
  replace_in_list h l i todo = (Ok (), h).
Proof.
  revert i. induction todo as [|v todo IH]; intros i; [done|].
  cbn. intros [Hv Hrest]%orb_false_iff. rewrite Hv. by apply IH.
Qed.

Lemma replace_in_dict_no_command (h : heap) l i todo :
  existsb (λ kv, is_Command h (snd kv)) todo = false →
  replace_in_dict h l i todo = (Ok (), h).
Proof.
  revert i. induction todo as [|[k v] todo IH]; intros i; [done|].
  cbn. intros [Hv Hrest]%orb_false_iff. rewrite Hv. by apply IH.
Qed.

Lemma replace_in_tuple_no_command (h : heap) obj todo :
  existsb (is_Command h) todo = false →
  replace_in_tuple h obj todo = Ok (PTuple obj).
Proof.
  induction todo as [|v todo IH]; [done|].
  cbn. intros [Hv Hrest]%orb_false_iff. rewrite Hv. by apply IH.
Qed.

(** Writing a list or a dict at [l], where a list or a dict was, changes
    neither which objects are commands nor their results. *)
Definition is_container (o : pyobj) : bool :=
  match o with
  | OInstance _ _ => false
  | _ => true
  end.

Lemma is_Command_insert (h : heap) l o o' v :
  h !! l = Some o → is_container o = true → is_container o' = true →
  is_Command (<[l := o']> h) v = is_Command h v.
Proof.
  intros Hl Ho Ho'. destruct v as [| | | |l']; try done. cbn.
  destruct (decide (l = l')) as [->|Hne].
  - rewrite lookup_insert_eq, Hl. by destruct o, o'.
  - by rewrite lookup_insert_ne.
Qed.

Lemma get_result_insert (h : heap) l o o' v :
  h !! l = Some o → is_container o = true → is_container o' = true →
  get_result (<[l := o']> h) v = get_result h v.
Proof.
  intros Hl Ho Ho'. destruct v as [| | | |l']; try done. cbn.
  destruct (decide (l = l')) as [->|Hne].
  - rewrite lookup_insert_eq, Hl. by destruct o, o'.
  - by rewrite lookup_insert_ne.
Qed.

Lemma replaced_command (h : heap) v r :
  is_Command h v = true → get_result h v = Ok r → replaced h v = r.
Proof.
  intros Hc Hr. unfold replaced, result_or_self. by rewrite Hc, Hr.
Qed.

Lemma replaced_other (h : heap) v :
  is_Command h v = false → replaced h v = v.
Proof. intros Hc. unfold replaced. by rewrite Hc. Qed.

Lemma insert_at_length {A} (pre : list A) x y rest :
  <[length pre := y]> (pre ++ x :: rest) = pre ++ y :: rest.
Proof. induction pre as [|a pre IH]; [done|]. simpl. f_equal. apply IH. Qed.

(** The loop over a list, started at index [length pre] with the elements
    [pre] already replaced. *)
Lemma replace_in_list_spec (h0 : heap) l items0 todo :
  h0 !! l = Some (OList items0) →
  commands_have_result h0 todo →
  ∀ pre,
    replace_in_list (<[l := OList (pre ++ todo)]> h0) l (length pre) todo
    = (Ok (), <[l := OList (pre ++ map (replaced h0) todo)]> h0).
Proof.
  intros Hl. induction todo as [|v todo IH]; intros Hres pre; [done|].
  cbn [replace_in_list map].
  rewrite (is_Command_insert _ _ _ _ _ Hl) by done.
  rewrite (get_result_insert _ _ _ _ _ Hl) by done.
  assert (Hres' : commands_have_result h0 todo).
  { intros v' Hv'. apply Hres. by right. }
  destruct (is_Command h0 v) eqn:Hc.
  - destruct (Hres v) as [r Hr]; [by left|done|]. rewrite Hr.
    rewrite (replaced_command _ _ _ Hc Hr).
    unfold setitem_list. rewrite lookup_insert_eq, insert_insert_eq.
    rewrite insert_at_length.
    specialize (IH Hres' (pre ++ [r])).
    rewrite length_app, Nat.add_1_r, <- !app_assoc in IH. apply IH.
  - rewrite (replaced_other _ _ Hc).
    specialize (IH Hres' (pre ++ [v])).
    rewrite length_app, Nat.add_1_r, <- !app_assoc in IH. apply IH.
Qed.

Lemma replace_in_dict_spec (h0 : heap) l items0 todo :
  h0 !! l = Some (ODict items0) →
  commands_have_result h0 (map snd todo) →
  ∀ pre,
    replace_in_dict (<[l := ODict (pre ++ todo)]> h0) l (length pre) todo
    = (Ok (), <[l := ODict (pre ++
                  map (λ kv, (fst kv, replaced h0 (snd kv))) todo)]> h0).
Proof.
  intros Hl. induction todo as [|[k v] todo IH]; intros Hres pre; [done|].
  cbn [replace_in_dict map fst snd].
  rewrite (is_Command_insert _ _ _ _ _ Hl) by done.
  rewrite (get_result_insert _ _ _ _ _ Hl) by done.
  assert (Hres' : commands_have_result h0 (map snd todo)).
  { intros v' Hv'. apply Hres. by right. }
  destruct (is_Command h0 v) eqn:Hc.
  - destruct (Hres v) as [r Hr]; [by left|done|]. rewrite Hr.
    rewrite (replaced_command _ _ _ Hc Hr).
    unfold setitem_dict. rewrite lookup_insert_eq, insert_insert_eq.
    rewrite insert_at_length.
    specialize (IH Hres' (pre ++ [(k, r)])).
    rewrite length_app, Nat.add_1_r, <- !app_assoc in IH. apply IH.
  - rewrite (replaced_other _ _ Hc).
    specialize (IH Hres' (pre ++ [(k, v)])).
    rewrite length_app, Nat.add_1_r, <- !app_assoc in IH. apply IH.
Qed.

Lemma replace_in_tuple_command (h : heap) obj todo :
  existsb (is_Command h) todo = true →
  commands_have_result h todo →
  replace_in_tuple h obj todo = Ok (PTuple (map (result_or_self h) obj)).
Proof.
  induction todo as [|v todo IH]; [done|].
  cbn. intros Hex Hres. destruct (is_Command h v) eqn:Hc.
  - destruct (Hres v) as [r Hr]; [by left|done|]. by rewrite Hr.
  - apply IH; [done|]. intros v' Hv'. apply Hres. by right.
Qed.

(** C9: [db_replace_record] returns its argument, and leaves the store as it
    is, when the argument is not a Command and has no Command among its
    mapping values or sequence elements; on a Command it returns the
    command's [result]; in a list or a dict it replaces the Commands by
    their results in place, in the object at the same address, and returns
    that object; on a tuple with a Command it returns a new tuple in which
    every Command has given way to its result, and changes nothing in the
    store. *)
Theorem db_replace_record_spec (h : heap) :
  (∀ obj, is_Command h obj = false → contains_Command h obj = false →
     db_replace_record h obj = (Ok obj, h))
  ∧ (∀ obj, is_Command h obj = true →
       db_replace_record h obj = (get_result h obj, h))
  ∧ (∀ l items, h !! l = Some (OList items) →
       commands_have_result h items →
       db_replace_record h (PRef l)
       = (Ok (PRef l), <[l := OList (map (replaced h) items)]> h))
  ∧ (∀ l items, h !! l = Some (ODict items) →
       commands_have_result h (map snd items) →
       db_replace_record h (PRef l)
       = (Ok (PRef l),
          <[l := ODict (map (λ kv, (fst kv, replaced h (snd kv))) items)]> h))
  ∧ (∀ items, existsb (is_Command h) items = true →
       commands_have_result h items →
       db_replace_record h (PTuple items)
       = (Ok (PTuple (map (result_or_self h) items)), h)
       ∧ ∀ v, v ∈ items → is_Command h v = true →
           get_result h v = Ok (result_or_self h v)).
Proof.
  split; [|split; [|split; [|split]]].
  - intros obj Hc Hn. destruct obj as [| | |items|l]; try done.
    + cbn in Hn |- *. by rewrite replace_in_tuple_no_command.
    + cbn in Hc, Hn |- *.
      destruct (h !! l) as [[items|items|[] r]|]; try done.
      * by rewrite replace_in_dict_no_command.
      * by rewrite replace_in_list_no_command.
  - intros obj Hc. destruct obj as [| | | |l]; try done.
    cbn in Hc |- *.
    by destruct (h !! l) as [[items|items|[] r]|].
  - intros l items Hl Hres. unfold db_replace_record. rewrite Hl.
    pose proof (replace_in_list_spec h l items items Hl Hres []) as H.
    cbn [app length] in H. rewrite (insert_id h l _ Hl) in H.
    by rewrite H.
  - intros l items Hl Hres. unfold db_replace_record. rewrite Hl.
    pose proof (replace_in_dict_spec h l items items Hl Hres []) as H.
    cbn [app length] in H. rewrite (insert_id h l _ Hl) in H.
    by rewrite H.
  - intros items Hex Hres. split.
    + cbn. by rewrite replace_in_tuple_command.
    + intros v Hv Hc. destruct (Hres v Hv Hc) as [r Hr].
      unfold result_or_self. by rewrite Hr.
Qed.

Lemma db_replace_record_spec_witness :
  db_replace_record sample_heap (PRef 4%positive)
  = (Ok (PRef 4%positive),
     <[4%positive := OList [PInt 10; PInt 5; PInt 20]]> sample_heap).
Proof.
  apply (proj1 (proj2 (proj2 (db_replace_record_spec sample_heap)))
           4%positive [PRef 1%positive; PInt 5; PRef 2%positive]).
  - reflexivity.
  - intros v Hv Hc.
    apply elem_of_cons in Hv as [->|Hv]; [by exists (PInt 10)|].
    apply elem_of_cons in Hv as [->|Hv]; [discriminate Hc|].
    apply elem_of_cons in Hv as [->|Hv]; [by exists (PInt 20)|].
    by apply elem_of_nil in Hv.
Defined.

End ReplaceRecord.

(** ** The commit loop *)

Section CommitLoop.
Import Commit Samples.

Context {W Cmd Txn Res : Type}.
Variable time_time : W → Z * W.
Variable new_txn : W → Txn * W.
Variable run_idl : Cmd → Txn → W → option pyexn * W.
Variable txn_abort : Txn → W → W.
Variable commit_block : Txn → W → status * W.
Variable get_error : Txn → W → string.
Variable idl_run : W → W.
Variable cmd_post_commit : Cmd → Txn → W → option pyexn * W.
Variable cmd_result : Cmd → W → Res.
Variable self : Transaction (Cmd:=Cmd).

Local Abbreviation run_commands_ := (run_commands run_idl txn_abort self).
Local Abbreviation post_commit_ := (post_commit cmd_post_commit self).
Local Abbreviation dispatch_ :=
  (dispatch get_error idl_run cmd_post_commit cmd_result self).
Local Abbreviation attempt_ :=
  (attempt time_time new_txn run_idl txn_abort commit_block self).
Local Abbreviation loop_ :=
  (commit_loop time_time new_txn run_idl txn_abort commit_block get_error
     idl_run cmd_post_commit cmd_result self).
Local Abbreviation do_commit_ :=
  (do_commit time_time new_txn run_idl txn_abort commit_block get_error
     idl_run cmd_post_commit cmd_result self).

Implicit Types st : state (W:=W).

(** *** Traces only grow *)

Ltac appends_tac :=
  unfold appends; cbn; rewrite <- ?app_assoc; cbn; split; reflexivity.

Lemma appends_refl st : appends st st [].
Proof. split; [by rewrite app_nil_r | done]. Qed.

Lemma appends_trans st1 st2 st3 e1 e2 :
  appends st1 st2 e1 → appends st2 st3 e2 → appends st1 st3 (e1 ++ e2).
Proof.
  intros [H1 S1] [H2 S2]. split; [|congruence].
  by rewrite H2, H1, app_assoc.
Qed.

Lemma appends_emit e w st : appends st (emit e (with_world w st)) [e].
Proof. done. Qed.

Lemma appends_emit_only e st : appends st (emit e st) [e].
Proof. done. Qed.

Lemma quiet_app e1 e2 : quiet (e1 ++ e2) = quiet e1 && quiet e2.
Proof. apply forallb_app. Qed.

Lemma quiet_calm timeout_ t0 evs : quiet evs = true → calm timeout_ t0 evs = true.
Proof.
  unfold quiet, calm. rewrite !forallb_forall. intros H e He.
  specialize (H e He). by destruct e.
Qed.

Lemma calm_app timeout_ t0 e1 e2 :
  calm timeout_ t0 (e1 ++ e2) = calm timeout_ t0 e1 && calm timeout_ t0 e2.
Proof. apply forallb_app. Qed.

Lemma stops_calm_app timeout_ t0 e1 e2 :
  calm timeout_ t0 e1 = true →
  stops_at_deadline timeout_ t0 (e1 ++ e2) = stops_at_deadline timeout_ t0 e2.
Proof.
  induction e1 as [|e e1 IH]; [done|].
  cbn. intros [He H1]%andb_true_iff. destruct e; try by apply IH.
  apply negb_true_iff in He. rewrite He. by apply IH.
Qed.

Lemma stops_calm timeout_ t0 evs :
  calm timeout_ t0 evs = true → stops_at_deadline timeout_ t0 evs = true.
Proof.
  intros H. rewrite <- (app_nil_r evs). by rewrite stops_calm_app.
Qed.

Lemma stops_no_retry timeout_ t0 evs :
  stops_at_deadline timeout_ t0 evs = true →
  no_retry_past_deadline timeout_ t0 evs = true.
Proof.
  induction evs as [|e evs IH]; [done|].
  cbn. destruct e; try done.
  destruct (timeout_ <? t - t0); [|done]. by destruct evs.
Qed.

Lemma run_commands_appends cmds idx txn st e st' :
  run_commands_ idx cmds txn st = (e, st') →
  ∃ evs, appends st st' evs ∧ quiet evs = true.
Proof.
  revert idx st. induction cmds as [|c cmds IH]; intros idx st; cbn.
  - intros [= <- <-]. exists []. split; [apply appends_refl | done].
  - destruct (run_idl c txn _) as [[ex|] w].
    + destruct (check_error self).
      * intros [= <- <-]. eexists [_; _; _]. split; [appends_tac | done].
      * intros (evs & Ha & Hq)%IH.
        exists ([LogDebug "Running txn n=%(n)d command(idx=%(idx)s): %(cmd)s";
                 EvRunIdl idx; EvAbort] ++ evs).
        split; [|done]. eapply appends_trans; [|exact Ha]. appends_tac.
    + intros (evs & Ha & Hq)%IH.
      exists ([LogDebug "Running txn n=%(n)d command(idx=%(idx)s): %(cmd)s";
               EvRunIdl idx] ++ evs).
      split; [|done]. eapply appends_trans; [|exact Ha]. appends_tac.
Qed.

Lemma post_commit_from_appends cmds idx txn st e st' :
  post_commit_from cmd_post_commit idx cmds txn st = (e, st') →
  ∃ evs, appends st st' evs ∧ quiet evs = true ∧
         (e = None → evs = map EvPostCommit (seq idx (length cmds))).
Proof.
  revert idx st. induction cmds as [|c cmds IH]; intros idx st; cbn.
  - intros [= <- <-]. exists []. split; [apply appends_refl | done].
  - destruct (cmd_post_commit c txn _) as [[ex|] w].
    + intros [= <- <-]. exists [EvPostCommit idx].
      split; [appends_tac | done].
    + intros (evs & Ha & Hq & He)%IH.
      exists ([EvPostCommit idx] ++ evs). split; [|split; [done|]].
      * eapply appends_trans; [|exact Ha]. appends_tac.
      * intros ->%He. done.
Qed.

Lemma dispatch_appends status_ txn st o st' :
  dispatch_ status_ txn st = (o, st') →
  ∃ evs, appends st st' evs ∧ quiet evs = true.
Proof.
  destruct status_; cbn.
  - intros [= <- <-]. eexists [_; _]. split; [appends_tac | done].
  - destruct (log_errors self), (check_error self); intros [= <- <-];
      first [ by eexists [_]; split; [appends_tac | done]
            | by exists []; split; [apply appends_refl | done] ].
  - destruct (log_errors self), (check_error self); intros [= <- <-];
      first [ by eexists [_]; split; [appends_tac | done]
            | by exists []; split; [apply appends_refl | done] ].
  - intros [= <- <-]. eexists [_]. split; [appends_tac | done].
  - intros [= <- <-]. eexists [_]. split; [appends_tac | done].
  - unfold post_commit.
    destruct (post_commit_from _ _ _ _ _) as [e st1] eqn:Hp.
    apply post_commit_from_appends in Hp as (evs & Ha & Hq & _).
    destruct e; intros [= <- <-]; by exists evs.
  - intros [= <- <-]. eexists [_]. split; [appends_tac | done].
Qed.

(** An iteration that is not stopped by the deadline opens a handle. *)
Lemma attempt_events attempts st :
  ∃ evs, appends st (attempt_state (attempt_ attempts st)) evs ∧
    match attempt_ attempts st with
    | Failed _ _ => stops_at_deadline (timeout self) (start_time st) evs = true
    | Committed _ _ _ => calm (timeout self) (start_time st) evs = true
    end.
Proof.
  unfold attempt.
  assert (Hbody : ∀ st1 pre,
    appends st st1 pre →
    calm (timeout self) (start_time st) pre = true →
    ∃ evs, appends st (attempt_state
      (let '(txn, w) := new_txn (world st1) in
       let st2 := emit EvNewTxn (with_world w st1) in
       let st2 := pre_commit txn st2 in
       let '(e, st3) := run_commands_ 0 (commands self) txn st2 in
       match e with
       | Some ex => Failed ex st3
       | None =>
           let '(status_, w) := commit_block txn (world st3) in
           Committed status_ txn
             (emit (EvCommitBlock status_) (with_world w st3))
       end)) evs ∧
    calm (timeout self) (start_time st) evs = true).
  { intros st1 pre Hpre Hcalm.
    destruct (new_txn (world st1)) as [txn w]. unfold pre_commit.
    destruct (run_commands_ _ _ _ _) as [e st3] eqn:Hrun.
    apply run_commands_appends in Hrun as (evs & Ha & Hq).
    destruct e as [ex|]; cbn [attempt_state].
    - exists (pre ++ [EvNewTxn] ++ evs). split.
      + eapply appends_trans; [exact Hpre|].
        eapply appends_trans; [|exact Ha]. appends_tac.
      + rewrite !calm_app, Hcalm. cbn. by apply quiet_calm.
    - destruct (commit_block txn (world st3)) as [status_ w'].
      cbn [attempt_state].
      exists (pre ++ [EvNewTxn] ++ evs ++ [EvCommitBlock status_]). split.
      + eapply appends_trans; [exact Hpre|].
        eapply (appends_trans _ (emit EvNewTxn (with_world w st1)));
          [appends_tac|].
        eapply appends_trans; [exact Ha|]. appends_tac.
      + rewrite !calm_app, Hcalm. cbn.
        by rewrite (quiet_calm _ _ _ Hq). }
  destruct (0 <? attempts)%nat.
  - unfold timeout_exceeded, elapsed_time, now.
    destruct (time_time (world st)) as [t w]. cbn [start_time emit with_world].
    destruct (timeout self <? t - start_time st) eqn:Hlate.
    + exists [EvTime t]. split; [appends_tac|]. cbn. by rewrite Hlate.
    + destruct (Hbody (emit (EvTime t) (with_world w st)) [EvTime t])
        as (evs & Ha & Hc); [appends_tac | by cbn; rewrite Hlate |].
      exists evs. split; [exact Ha|].
      destruct (let '(txn, w0) := new_txn _ in _); [by apply stops_calm|done].
  - destruct (Hbody st []) as (evs & Ha & Hc); [apply appends_refl|done|].
    exists evs. split; [exact Ha|].
    destruct (let '(txn, w0) := new_txn _ in _); [by apply stops_calm|done].
Qed.

(** Whatever the clock and the handle do, once a retry reads the clock
    past the deadline, [do_commit] stops. *)
Lemma commit_loop_events fuel attempts st :
  ∃ evs, appends st (snd (loop_ fuel attempts st)) evs ∧
         stops_at_deadline (timeout self) (start_time st) evs = true.
Proof.
  revert attempts st. induction fuel as [|fuel IH]; intros attempts st.
  - exists []. split; [apply appends_refl | done].
  - cbn [commit_loop].
    destruct (attempt_events attempts st) as (e1 & Ha1 & H1).
    destruct (attempt_ attempts st) as [ex st1|status_ txn st1];
      cbn [attempt_state] in Ha1.
    + by exists e1.
    + destruct (dispatch_ status_ txn st1) as [[out|] st2] eqn:Hd;
        apply dispatch_appends in Hd as (e2 & Ha2 & Hq2).
      * exists (e1 ++ e2). split; [by eapply appends_trans|].
        apply stops_calm. rewrite calm_app, H1. by apply quiet_calm.
      * destruct (IH (S attempts) st2) as (e3 & Ha3 & H3).
        exists ((e1 ++ e2) ++ e3). split.
        -- eapply appends_trans; [by eapply appends_trans | exact Ha3].
        -- rewrite stops_calm_app.
           ++ destruct Ha1 as [_ S1], Ha2 as [_ S2]. by rewrite <- S1, <- S2.
           ++ rewrite calm_app, H1. by apply quiet_calm.
Qed.

(** The first iteration opens a handle before anything else. *)
Lemma first_attempt_opens fuel st :
  ∃ rest, trace (snd (loop_ (S fuel) 0 st)) = trace st ++ EvNewTxn :: rest.
Proof.
  cbn [commit_loop]. unfold attempt. cbn [Nat.ltb Nat.leb].
  destruct (new_txn (world st)) as [txn w]. unfold pre_commit.
  destruct (run_commands_ _ _ _ _) as [e st1] eqn:Hrun.
  apply run_commands_appends in Hrun as (e1 & [Ht1 _] & _).
  cbn in Ht1. rewrite <- app_assoc in Ht1.
  destruct e as [ex|]; [by eexists|].
  destruct (commit_block txn (world st1)) as [status_ w'].
  destruct (dispatch_ _ _ _) as [[out|] st2] eqn:Hd;
    apply dispatch_appends in Hd as (e2 & [Ht2 _] & _);
    cbn in Ht2; rewrite Ht1, <- !app_assoc in Ht2.
  - by eexists.
  - destruct (commit_loop_events fuel 1 st2) as (e3 & [Ht3 _] & _).
    cbn [snd]. rewrite Ht3, Ht2, <- !app_assoc. by eexists.
Qed.

(** C4: a retry is never started past the deadline.  On every iteration
    after the first, when the clock read at the top of the loop is more
    than [timeout] after the start, [do_commit] raises [RuntimeError] and
    does nothing else: no handle is opened, whatever the handle reported
    before.  The first iteration does not read the clock: it opens a handle
    right after the start time is taken; and in a whole run no handle is
    opened after a reading of the clock past the deadline. *)
Theorem retry_never_starts_past_deadline :
  (∀ fuel attempts st t w,
     (0 < attempts)%nat →
     time_time (world st) = (t, w) →
     timeout self < t - start_time st →
     loop_ (S fuel) attempts st
     = (Some (Raised (RuntimeError "OVS transaction timed out")),
        emit (EvTime t) (with_world w st)))
  ∧ (∀ fuel w0, ∃ rest,
       let st := snd (do_commit_ (S fuel) w0) in
       trace st = EvTime (start_time st) :: EvNewTxn :: rest
       ∧ start_time st = fst (time_time w0)
       ∧ no_retry_past_deadline (timeout self) (start_time st) rest = true).
Proof.
  split.
  - intros fuel attempts st t w Hn Ht Hlate.
    cbn [commit_loop]. unfold attempt.
    apply Nat.ltb_lt in Hn. rewrite Hn.
    unfold timeout_exceeded, elapsed_time, now. rewrite Ht.
    cbn [start_time emit with_world].
    apply Z.ltb_lt in Hlate. by rewrite Hlate.
  - intros fuel w0. unfold do_commit.
    destruct (time_time w0) as [t0 w]. cbn [fst].
    set (st0 := {| world := w; trace := [EvTime t0]; start_time := t0 |}).
    destruct (first_attempt_opens fuel st0) as [rest Hrest].
    destruct (commit_loop_events (S fuel) 0 st0) as (evs & [Ht Hs] & Hstop).
    exists rest. cbn zeta. rewrite Hs. split; [exact Hrest|]. split; [done|].
    rewrite Hrest in Ht. apply app_inv_head in Ht. subst evs.
    by apply stops_no_retry.
Qed.

(** C5: when the handle reports [ERROR] or [NOT_LOCKED], [do_commit] ends
    there.  The message is ["OVSDB Error: "] followed by the lock message
    for [NOT_LOCKED] and by the error text of the handle for [ERROR]; it is
    logged exactly when [log_errors] is set; [do_commit] raises
    [RuntimeError] with the message when [check_error] is set and returns
    [None] otherwise. *)
Theorem error_status_ends_the_commit fuel attempts st status_ txn st1 :
  attempt_ attempts st = Committed status_ txn st1 →
  status_ = ERROR ∨ status_ = NOT_LOCKED →
  let msg := ("OVSDB Error: " ++
              match status_ with
              | NOT_LOCKED => NOT_LOCKED_msg
              | _ => get_error txn (world st1)
              end)%string in
  loop_ (S fuel) attempts st
  = (Some (if check_error self then Raised (RuntimeError msg)
           else Returned None),
     if log_errors self then emit (LogError msg) st1 else st1).
Proof.
  intros Ha Hs msg. cbn [commit_loop]. rewrite Ha.
  destruct Hs as [-> | ->]; subst msg; cbn;
    by destruct (log_errors self), (check_error self).
Qed.

(** C6: when the handle reports [UNCHANGED], or a status that is not
    recognised, [do_commit] logs a debug record and returns the [result] of
    every command, in the order of [commands], without running any
    post-commit step; when it reports [SUCCESS], the post-commit step of
    every command is run, in order, and, if none of them raises, the
    results read afterwards are returned in the same way. *)
Theorem success_returns_results fuel attempts st status_ txn st1 :
  attempt_ attempts st = Committed status_ txn st1 →
  (status_ = UNCHANGED →
     loop_ (S fuel) attempts st
     = (Some (Returned (Some
          (map (λ cmd, cmd_result cmd (world st1)) (commands self)))),
        emit (LogDebug "Transaction caused no change") st1))
  ∧ (∀ name, status_ = UNKNOWN name →
       loop_ (S fuel) attempts st
       = (Some (Returned (Some
            (map (λ cmd, cmd_result cmd (world st1)) (commands self)))),
          emit (LogDebug "Transaction returned an unknown status: %s") st1))
  ∧ (status_ = SUCCESS → ∀ st2,
       post_commit_ txn st1 = (None, st2) →
       loop_ (S fuel) attempts st
       = (Some (Returned (Some
            (map (λ cmd, cmd_result cmd (world st2)) (commands self)))),
          st2)
       ∧ trace st2
         = trace st1 ++ map EvPostCommit (seq 0 (length (commands self)))).
Proof.
  intros Ha. split; [|split].
  - intros ->. cbn [commit_loop]. by rewrite Ha.
  - intros name ->. cbn [commit_loop]. by rewrite Ha.
  - intros -> st2 Hp. split.
    + cbn [commit_loop]. rewrite Ha. cbn [dispatch]. by rewrite Hp.
    + unfold post_commit in Hp.
      apply post_commit_from_appends in Hp as (evs & [Ht _] & _ & He).
      by rewrite Ht, He.
Qed.

End CommitLoop.

Section CommitSamples.
Import Commit Samples.

Local Abbreviation mock_loop :=
  (commit_loop mock_time mock_new_txn mock_run_idl mock_abort
     mock_commit_block mock_get_error mock_idl_run mock_post_commit
     mock_result).

(** A retry that finds the clock at 10, with a start at 0 and a timeout of
    5, raises and opens no handle. *)
Lemma retry_never_starts_past_deadline_witness :
  mock_loop (mock_txn false true) 1%nat 1%nat
    (mock_state {| clock := 10; tick := 10; script := [TRY_AGAIN];
                   finalized := [] |} 0)
  = (Some (Raised (RuntimeError "OVS transaction timed out")),
     {| world := {| clock := 20; tick := 10; script := [TRY_AGAIN];
                    finalized := [] |};
        trace := [EvTime 0; EvTime 10];
        start_time := 0 |}).
Proof.
  apply (proj1 (retry_never_starts_past_deadline mock_time mock_new_txn
                  mock_run_idl mock_abort mock_commit_block mock_get_error
                  mock_idl_run mock_post_commit mock_result
                  (mock_txn false true))
           0%nat 1%nat
           (mock_state {| clock := 10; tick := 10; script := [TRY_AGAIN];
                          finalized := [] |} 0)
           10
           {| clock := 20; tick := 10; script := [TRY_AGAIN];
              finalized := [] |});
    [lia | reflexivity | reflexivity].
Defined.

(** With [check_error] set and the handle reporting [ERROR], the error text
    of the handle is logged and raised. *)
Lemma error_status_ends_the_commit_witness :
  fst (mock_loop (mock_txn true true) 1%nat 0%nat
         (mock_state {| clock := 1; tick := 1; script := [ERROR];
                        finalized := [] |} 0))
  = Some (Raised (RuntimeError "OVSDB Error: constraint violation")).
Proof.
  erewrite (error_status_ends_the_commit mock_time mock_new_txn mock_run_idl
              mock_abort mock_commit_block mock_get_error mock_idl_run
              mock_post_commit mock_result (mock_txn true true)
              0%nat 0%nat _ ERROR);
    [reflexivity | reflexivity | by left].
Defined.

(** With the handle reporting [SUCCESS], both post-commit steps run and
    the two results are returned in the order of the commands. *)
Lemma success_returns_results_witness :
  fst (mock_loop (mock_txn false true) 1%nat 0%nat
         (mock_state {| clock := 1; tick := 1; script := [SUCCESS];
                        finalized := [] |} 0))
  = Some (Returned (Some [101; 102])).
Proof.
  edestruct (success_returns_results mock_time mock_new_txn mock_run_idl
               mock_abort mock_commit_block mock_get_error mock_idl_run
               mock_post_commit mock_result (mock_txn false true)
               0%nat 0%nat
               (mock_state {| clock := 1; tick := 1; script := [SUCCESS];
                              finalized := [] |} 0)
               SUCCESS) as (_ & _ & H); [reflexivity|].
  edestruct (H eq_refl) as [Hr _]; [reflexivity|].
  rewrite Hr. reflexivity.
Defined.

End CommitSamples.

(** * Further properties *)

(** ** The condition evaluator, continued *)

Section ConditionMatchMore.
Import Idlutils Samples MoreSamples.

Lemma atom_eqb_key a b : atom_eqb a b = bool_decide (atom_key a = atom_key b).
Proof.
  destruct a as [x|x|k s|u|r], b as [y|y|k' t|v|r']; cbn;
    try (symmetry; by apply bool_decide_eq_false_2).
  - destruct x, y; cbn; by rewrite ?bool_decide_eq_true_2,
      ?bool_decide_eq_false_2 by done.
  - destruct (Z.eqb_spec (Z.b2z x) y) as [->|Hne].
    + by rewrite bool_decide_eq_true_2.
    + rewrite bool_decide_eq_false_2; [done|]. intros [=]. done.
  - destruct (Z.eqb_spec x (Z.b2z y)) as [->|Hne].
    + by rewrite bool_decide_eq_true_2.
    + rewrite bool_decide_eq_false_2; [done|]. intros [=]. done.
  - destruct (Z.eqb_spec x y) as [->|Hne].
    + by rewrite bool_decide_eq_true_2.
    + rewrite bool_decide_eq_false_2; [done|]. intros [=]. done.
  - case_bool_decide as Hs.
    + subst. by rewrite bool_decide_eq_true_2.
    + rewrite bool_decide_eq_false_2; [done|]. intros [=]. done.
  - destruct (Z.eqb_spec (uuid_int u) (uuid_int v)) as [He|Hne].
    + rewrite He. by rewrite bool_decide_eq_true_2.
    + rewrite bool_decide_eq_false_2; [done|]. intros [=]. done.
  - destruct (Z.eqb_spec (uuid_int (row_uuid r)) (uuid_int (row_uuid r')))
      as [He|Hne].
    + rewrite He. by rewrite bool_decide_eq_true_2.
    + rewrite bool_decide_eq_false_2; [done|]. intros [=]. done.
Qed.

Lemma atom_eqb_compat x y z :
  atom_eqb x y = true → atom_eqb x z = atom_eqb y z.
Proof.
  rewrite !atom_eqb_key. intros H%bool_decide_eq_true. by rewrite H.
Qed.

Lemma list_mem_compat x y lv :
  atom_eqb x y = true → list_mem x lv = list_mem y lv.
Proof.
  intros H. unfold list_mem. induction lv as [|z lv IH]; [done|].
  cbn. by rewrite (atom_eqb_compat _ _ _ H), IH.
Qed.

Lemma list_mem_self x l : x ∈ l → list_mem x l = true.
Proof.
  intros H. unfold list_mem. apply existsb_exists. exists x.
  split; [by apply list_elem_of_In | apply atom_eqb_refl].
Qed.

(** Testing the representatives of [set(l)] is testing the elements of
    [l], for a test that does not tell equal elements apart. *)
Lemma forallb_py_set_eq (P : atom → bool) l :
  (∀ x y, atom_eqb x y = true → P x = P y) →
  forallb P (py_set l) = forallb P l.
Proof.
  intros HP. induction l as [|x l IH]; [done|].
  cbn [py_set forallb]. rewrite <- IH. destruct (P x) eqn:Hx; [|done].
  cbn. clear IH. induction (py_set l) as [|y s IHs]; [done|].
  cbn [forallb]. rewrite filter_cons. case_decide as Hxy.
  - cbn [forallb]. by rewrite IHs.
  - rewrite IHs. apply not_false_is_true in Hxy.
    by rewrite <- (HP x y Hxy), Hx.
Qed.

Lemma list_eqb_refl l : list_eqb l l = true.
Proof.
  induction l as [|a l IH]; [done|]. cbn. by rewrite atom_eqb_refl, IH.
Qed.

(** X1: whatever the operator, an operand whose type is not the type of the
    column value (and that is not text against text) is rejected with
    [ValueError] when both are true values, or when the column is not
    optional. *)
Theorem type_mismatch_raises_ValueError row col op match_ val :
  get_column_value row col = Ok val →
  type_of match_ ≠ type_of val →
  is_string match_ && is_string val = false →
  truthy match_ && truthy val = true
    ∨ (∃ ct, column_type row col = Ok ct ∧ is_optional ct = false) →
  condition_match row (col, op, match_)
  = Raise (ValueError "Column type and condition operand do not match").
Proof.
  intros Hv Ht Hs Hc. unfold condition_match. rewrite Hv. cbn.
  unfold check_types. rewrite (bool_decide_eq_false_2 _ Ht), Hs. cbn.
  destruct Hc as [Hb|(ct & Hct & Ho)].
  - by rewrite Hb.
  - destruct (truthy match_ && truthy val); cbn; [done|].
    rewrite Hct. cbn. by rewrite Ho.
Qed.

Lemma type_mismatch_raises_ValueError_witness :
  condition_match port_row ("trunks", "<", VAtom (AInt 1))
  = Raise (ValueError "Column type and condition operand do not match").
Proof.
  apply (type_mismatch_raises_ValueError port_row "trunks" "<" _
           (VList [AInt 1; AInt 3])); [reflexivity | discriminate | reflexivity |].
  left. reflexivity.
Defined.

(** X2: a row matches the condition that compares a column with [=] to the
    value the column has. *)
Theorem condition_match_eq_reflexive row col val :
  get_column_value row col = Ok val →
  condition_match row (col, "=", val) = Ok true.
Proof.
  intros Hv.
  rewrite (condition_match_same_type _ _ _ _ _ Hv) by by left.
  destruct val as [|a|l|d]; cbn [compare].
  - done.
  - rewrite op_eq_true. unfold py_ne. cbn. by rewrite atom_eqb_refl.
  - rewrite op_eq_true. destruct l as [|x l]; [done|].
    cbn [truthy andb negb]. rewrite match_includes_list. f_equal.
    apply forallb_py_set. intros e He. by apply list_mem_self.
  - rewrite match_dict_eq by apply dict_get_fst. f_equal.
    apply forallb_all. intros k Hk. unfold key_agrees.
    destruct (dict_get_fst d k Hk) as [v ->]. apply atom_eqb_refl.
Qed.

Lemma condition_match_eq_reflexive_witness :
  condition_match port_row ("external_ids", "=",
    VDict [(AStr KStr "a", AInt 1); (AStr KStr "b", AInt 3)]) = Ok true.
Proof.
  apply (condition_match_eq_reflexive port_row "external_ids"). reflexivity.
Defined.

(** X3: on a non-empty list value, a non-empty list operand is compared as
    a set: [=] matches exactly when every element of the operand is in the
    value, [!=] exactly when none is; neither the order nor the repetitions
    of the operand count. *)
Theorem list_operand_is_compared_as_set row col l lv :
  get_column_value row col = Ok (VList lv) →
  l ≠ [] → lv ≠ [] →
  condition_match row (col, "=", VList l)
    = Ok (forallb (λ e, list_mem e lv) l)
  ∧ condition_match row (col, "!=", VList l)
    = Ok (forallb (λ e, negb (list_mem e lv)) l).
Proof.
  intros Hv Hl Hlv.
  rewrite !(condition_match_same_type _ _ _ _ _ Hv) by by left.
  destruct l as [|x l]; [done|]. destruct lv as [|y lv]; [done|].
  cbn [compare truthy andb negb].
  rewrite op_eq_true, op_ne_not_eq, op_ne_true.
  rewrite match_includes_list, match_excludes_list.
  split; f_equal; apply forallb_py_set_eq; intros a b Hab.
  - by apply list_mem_compat.
  - f_equal. by apply list_mem_compat.
Qed.

Lemma list_operand_is_compared_as_set_witness :
  condition_match port_row ("trunks", "=", VList [AInt 3; AInt 3; AInt 1])
    = Ok true
  ∧ condition_match port_row ("trunks", "!=", VList [AInt 3; AInt 3; AInt 1])
    = Ok false.
Proof.
  apply (list_operand_is_compared_as_set port_row "trunks"
           [AInt 3; AInt 3; AInt 1] [AInt 1; AInt 3]);
    [reflexivity | discriminate | discriminate].
Defined.

(** X4: when the list operand or the list value is empty the two lists are
    compared as they are: [=] matches only if both are empty, and [!=] is
    its negation; an empty operand does not match a non-empty value. *)
Theorem empty_list_falls_back_to_equality row col l lv :
  get_column_value row col = Ok (VList lv) →
  l = [] ∨ lv = [] →
  condition_match row (col, "=", VList l)
    = Ok (bool_decide (l = [] ∧ lv = []))
  ∧ condition_match row (col, "!=", VList l)
    = Ok (negb (bool_decide (l = [] ∧ lv = []))).
Proof.
  intros Hv He.
  rewrite !(condition_match_same_type _ _ _ _ _ Hv) by by left.
  cbn [compare]. rewrite op_eq_true, op_ne_not_eq, op_ne_true.
  destruct l as [|x l], lv as [|y lv]; cbn; try done.
  by destruct He.
Qed.

Lemma empty_list_falls_back_to_equality_witness :
  condition_match port_row ("trunks", "=", VList []) = Ok false
  ∧ condition_match port_row ("trunks", "!=", VList []) = Ok true.
Proof.
  apply (empty_list_falls_back_to_equality port_row "trunks" []
           [AInt 1; AInt 3]); [reflexivity | by left].
Defined.

(** X5: on an optional column an empty list stands for no value.  A column
    without a value does not equal any scalar operand, and a column with a
    value does not equal the empty list operand: [=] does not match and
    [!=] matches. *)
Theorem optional_column_empty_is_no_value row col ct :
  column_type row col = Ok ct →
  is_optional ct = true →
  (∀ a, get_column_value row col = Ok (VList []) →
     condition_match row (col, "=", VAtom a) = Ok false
     ∧ condition_match row (col, "!=", VAtom a) = Ok true)
  ∧ (∀ a, get_column_value row col = Ok (VAtom a) →
       condition_match row (col, "=", VList []) = Ok false
       ∧ condition_match row (col, "!=", VList []) = Ok true).
Proof.
  intros Hct Ho. split; intros a Hv; unfold condition_match;
    rewrite Hv; cbn [mbind result_bind]; unfold check_types.
  - assert (Ht : type_of (VAtom a) ≠ TList) by by destruct a as [| |[]| |].
    rewrite (bool_decide_eq_false_2 _ Ht). cbn [negb is_string andb truthy].
    rewrite andb_false_r. cbn [negb]. rewrite Hct. cbn [mbind result_bind].
    rewrite Ho. cbn. by rewrite andb_false_r.
  - assert (Ht : TList ≠ type_of (VAtom a)) by by destruct a as [| |[]| |].
    change (type_of (VList [])) with TList.
    rewrite (bool_decide_eq_false_2 _ Ht).
    cbn [negb is_string andb truthy]. rewrite Hct. cbn [mbind result_bind].
    rewrite Ho. cbn. done.
Qed.

Lemma optional_column_empty_is_no_value_witness :
  condition_match port_row ("tag", "=", VAtom (AInt 5)) = Ok false
  ∧ condition_match port_row ("tag", "!=", VAtom (AInt 5)) = Ok true.
Proof.
  apply (proj1 (optional_column_empty_is_no_value port_row "tag"
                  {| is_optional := true |} eq_refl eq_refl) (AInt 5)).
  reflexivity.
Defined.

(** X6: text is compared by content: an operand of either text type is
    accepted against a text value of either text type. *)
Theorem text_operand_of_either_kind row col k s k' s' :
  get_column_value row col = Ok (VAtom (AStr k s)) →
  condition_match row (col, "=", VAtom (AStr k' s')) = Ok (bool_decide (s = s'))
  ∧ condition_match row (col, "!=", VAtom (AStr k' s'))
    = Ok (negb (bool_decide (s = s'))).
Proof.
  intros Hv.
  rewrite !(condition_match_same_type _ _ _ _ _ Hv) by by right.
  cbn [compare]. rewrite op_eq_true, op_ne_not_eq, op_ne_true.
  unfold py_ne. cbn. by rewrite negb_involutive.
Qed.

(** X7: on a map value, a map operand with [=] matches exactly when every
    key of the operand is in the value with an equal value; the other keys
    of the value do not count, and an empty operand matches. *)
Theorem map_eq_matches_iff_every_key_agrees row col d dv :
  get_column_value row col = Ok (VDict dv) →
  condition_match row (col, "=", VDict d)
    = Ok (forallb (key_agrees d dv) (map fst d))
  ∧ (forallb (key_agrees d dv) (map fst d) = true ↔
     ∀ k, k ∈ map fst d →
       ∃ v v', dict_get d k = Some v ∧ dict_get dv k = Some v' ∧
               atom_eqb v v' = true).
Proof.
  intros Hv. split.
  - rewrite (condition_match_same_type _ _ _ _ _ Hv) by by left.
    cbn [compare]. apply match_dict_eq. apply dict_get_fst.
  - rewrite forallb_forall. split.
    + intros H k Hk%list_elem_of_In. specialize (H k Hk).
      unfold key_agrees in H.
      destruct (dict_get d k) as [v|]; [|done].
      destruct (dict_get dv k) as [v'|]; [|done]. by exists v, v'.
    + intros H k Hk%list_elem_of_In.
      destruct (H k Hk) as (v & v' & Hd & Hdv & He).
      unfold key_agrees. by rewrite Hd, Hdv.
Qed.

Lemma map_eq_matches_iff_every_key_agrees_witness :
  condition_match port_row ("external_ids", "=", VDict [(AStr KStr "b", AInt 3)])
  = Ok true.
Proof.
  exact (proj1 (map_eq_matches_iff_every_key_agrees port_row "external_ids"
    [(AStr KStr "b", AInt 3)]
    [(AStr KStr "a", AInt 1); (AStr KStr "b", AInt 3)] eq_refl)).
Defined.

Lemma text_operand_of_either_kind_witness :
  condition_match bridge_row ("name", "=", VAtom (AStr KUnicode "br-int"))
  = Ok true.
Proof.
  exact (proj1 (text_operand_of_either_kind bridge_row "name" KStr "br-int"
                  KUnicode "br-int" eq_refl)).
Defined.

(** X8: [row_match] is the conjunction of the conditions. *)
Theorem row_match_is_conjunction row conds :
  row_match row conds = Ok true
  ↔ Forall (λ c, condition_match row c = Ok true) conds.
Proof.
  induction conds as [|c conds IH]; cbn.
  - split; [by constructor | done].
  - rewrite Forall_cons.
    destruct (condition_match row c) as [[]|e]; cbn.
    + rewrite IH. split; [by split | by intros [_ ?]].
    + split; [done | by intros [? _]].
    + split; [done | by intros [? _]].
Qed.

(** X9: [row_match] stops at the first condition that does not match or
    that fails, with the answer of that condition; the conditions after it
    are not evaluated, so that an error in one of them is not seen. *)
Theorem row_match_stops_at_first_failure row pre c post r :
  Forall (λ c', condition_match row c' = Ok true) pre →
  condition_match row c = r →
  r ≠ Ok true →
  row_match row (pre ++ c :: post) = r.
Proof.
  intros Hpre Hc Hr. induction Hpre as [|c' pre Hc' _ IH]; cbn.
  - rewrite Hc. by destruct r as [[]|e].
  - by rewrite Hc'.
Qed.

Lemma row_match_stops_at_first_failure_witness :
  row_match port_row
    [("trunks", "=", VList [AInt 1]);
     ("external_ids", "=", ids_a1_b2);
     ("trunks", "<", VAtom (AInt 1))]
  = Ok false.
Proof.
  apply (row_match_stops_at_first_failure port_row
           [("trunks", "=", VList [AInt 1])]
           ("external_ids", "=", ids_a1_b2)
           [("trunks", "<", VAtom (AInt 1))] (Ok false)).
  - constructor; [reflexivity | constructor].
  - reflexivity.
  - discriminate.
Defined.

Lemma uuids_of_rows rs :
  uuids_of (ARow <$> rs) = Ok ((λ r, AUuid (row_uuid r)) <$> rs).
Proof.
  induction rs as [|r rs IH]; [done|]. cbn. by rewrite IH.
Qed.

Lemma uuids_of_not_a_row l :
  Exists (λ a, is_row a = false) l → uuids_of l = Raise AttributeError.
Proof.
  induction l as [|a l IH]; intros H; [by apply Exists_nil in H|].
  apply Exists_cons in H as [H|H].
  - by destruct a.
  - destruct a; try done. cbn. by rewrite IH.
Qed.

(** X10: a column that holds references to rows is read as the UUIDs of
    these rows, in the same order, and as the UUID of the one row when the
    column is optional; when the first element is a row and some other
    element is not, reading the column fails with [AttributeError]. *)
Theorem get_column_value_hides_rows row col ct r rs :
  col ≠ "_uuid" →
  column_type row col = Ok ct →
  (row_attrs row !! col = Some (VList (ARow r :: (ARow <$> rs))) →
     get_column_value row col
     = Ok (if is_optional ct then VAtom (AUuid (row_uuid r))
           else VList ((λ r, AUuid (row_uuid r)) <$> r :: rs)))
  ∧ (∀ l, row_attrs row !! col = Some (VList (ARow r :: l)) →
       Exists (λ a, is_row a = false) l →
       get_column_value row col = Raise AttributeError).
Proof.
  intros Hcol Hct. split.
  - intros Ha. unfold get_column_value, getattr.
    rewrite (bool_decide_eq_false_2 _ Hcol), Ha. cbn [mbind result_bind].
    change (uuids_of (ARow r :: (ARow <$> rs)))
      with (uuids_of (ARow <$> r :: rs)).
    rewrite uuids_of_rows. cbn [mbind result_bind]. rewrite Hct.
    cbn [mbind result_bind]. by destruct (is_optional ct).
  - intros l Ha Hl. unfold get_column_value, getattr.
    rewrite (bool_decide_eq_false_2 _ Hcol), Ha. cbn [mbind result_bind].
    rewrite (uuids_of_not_a_row (ARow r :: l)); [done|]. by right.
Qed.

Lemma get_column_value_hides_rows_witness :
  get_column_value eth0_row "interfaces"
  = Ok (VList [AUuid (MkUUID 4); AUuid (MkUUID 3)]).
Proof.
  apply (proj1 (get_column_value_hides_rows eth0_row "interfaces"
                  {| is_optional := false |} bridge_row [queue_row]
                  ltac:(discriminate) eq_refl)).
  reflexivity.
Defined.

End ConditionMatchMore.

(** ** The record resolver, continued *)

Section RecordResolverMore.
Import Idlutils Resolver Samples MoreSamples.

Variable uuid_UUID : string → option UUID.
Variable sys_platform : string.

Lemma scan_rows_first pre u r post column_ match_ v :
  Forall (λ ur, differs_on column_ match_ (snd ur)) pre →
  getattr r column_ = Ok v →
  py_eq v match_ = true →
  scan_rows (pre ++ (u, r) :: post) column_ match_ = Ok (Some r).
Proof.
  intros Hpre Hv He. induction Hpre as [|[u' r'] pre (v' & Hv' & Hne) _ IH].
  - cbn. rewrite Hv. cbn. by rewrite He.
  - cbn in Hv' |- *. rewrite Hv'. cbn. by rewrite Hne.
Qed.

Lemma scan_rows_none rs column_ match_ :
  Forall (λ ur, differs_on column_ match_ (snd ur)) rs →
  scan_rows rs column_ match_ = Ok None.
Proof.
  intros H. induction H as [|[u' r'] rs (v' & Hv' & Hne) _ IH]; [done|].
  cbn in Hv' |- *. rewrite Hv'. cbn. by rewrite Hne.
Qed.

Lemma rows_get_present (rs : list (UUID * Row)) u r :
  NoDup (fst <$> rs) → (u, r) ∈ rs → rows_get rs u = Ok r.
Proof.
  induction rs as [|[u' r'] rs IH]; [by intros _ ?%elem_of_nil|].
  cbn. intros [Hnin Hnd]%NoDup_cons [Heq|Hin]%elem_of_cons.
  - simplify_eq. by rewrite bool_decide_eq_true_2.
  - rewrite bool_decide_eq_false_2; [by apply IH|].
    intros ->. apply Hnin. apply list_elem_of_fmap. by exists (u', r).
Qed.

(** X11: [row_by_value] returns the first row, in the order of the table,
    whose column equals [match], whether or not a default is given. *)
Theorem row_by_value_returns_first_match {D} idl_ table_ t column_ match_
    (default_ : option D) pre u r post v :
  tables idl_ !! table_ = Some t →
  rows t = pre ++ (u, r) :: post →
  Forall (λ ur, differs_on column_ match_ (snd ur)) pre →
  getattr r column_ = Ok v →
  py_eq v match_ = true →
  row_by_value idl_ table_ column_ match_ default_ = Ok (inl r).
Proof.
  intros Ht Hr Hpre Hv He. unfold row_by_value, get_table. rewrite Ht. cbn.
  by rewrite Hr, (scan_rows_first _ _ _ _ _ _ _ Hpre Hv He).
Qed.

(** X12: when no row of the table has [match] in the column,
    [row_by_value] returns the default if one is given and raises
    [RowNotFound] with the table, the column and [match] otherwise. *)
Theorem row_by_value_without_match {D} idl_ table_ t column_ match_
    (default_ : option D) :
  tables idl_ !! table_ = Some t →
  Forall (λ ur, differs_on column_ match_ (snd ur)) (rows t) →
  row_by_value idl_ table_ column_ match_ default_
  = match default_ with
    | Some d => Ok (inr d)
    | None => Raise (RowNotFound table_ column_ match_)
    end.
Proof.
  intros Ht Hrows. unfold row_by_value, get_table. rewrite Ht. cbn.
  by rewrite (scan_rows_none _ _ _ Hrows).
Qed.

(** X13: a record that is, or parses as, the UUID of a row of the table
    resolves to that row, on every platform and whatever the lookup
    strategy of the table, even for a table that has none. *)
Theorem resolve_by_uuid idl_ table_ t record u r :
  tables idl_ !! table_ = Some t →
  NoDup (fst <$> rows t) →
  record_uuid uuid_UUID record = Some u →
  (u, r) ∈ rows t →
  row_by_record uuid_UUID sys_platform idl_ table_ record = Ok (ARow r).
Proof.
  intros Ht Hnd Hu Hin. unfold row_by_record, get_table. rewrite Ht. cbn.
  assert (Hd : direct_lookup uuid_UUID t record = Ok r).
  { destruct record as [|[]| |]; try done; cbn in Hu |- *.
    - rewrite Hu. by apply rows_get_present.
    - simplify_eq. by apply rows_get_present. }
  by rewrite Hd.
Qed.

(** X14: in a table that has no entry in the lookup table and one index, on
    one column, a record that is not a UUID resolves to the first row whose
    index column equals the record, and to [RowNotFound] with the table,
    the index column and the record when there is none. *)
Theorem resolve_by_index_column idl_ table_ t c k s :
  _LOOKUP_TABLE !! table_ = None →
  tables idl_ !! table_ = Some t →
  indexes t = [[c]] →
  uuid_UUID s = None →
  (∀ pre u r post v,
     rows t = pre ++ (u, r) :: post →
     Forall (λ ur, differs_on c (VAtom (AStr k s)) (snd ur)) pre →
     getattr r c = Ok v →
     py_eq v (VAtom (AStr k s)) = true →
     row_by_record uuid_UUID sys_platform idl_ table_ (VAtom (AStr k s))
     = Ok (ARow r))
  ∧ (Forall (λ ur, differs_on c (VAtom (AStr k s)) (snd ur)) (rows t) →
     row_by_record uuid_UUID sys_platform idl_ table_ (VAtom (AStr k s))
     = Raise (RowNotFound table_ c (VAtom (AStr k s)))).
Proof.
  intros Hrl Ht Hidx Hs.
  rewrite (row_by_record_not_a_uuid _ _ _ _ _ _ _ Ht Hs).
  unfold lookup_by_strategy, get_index_column. rewrite Hrl, Hidx.
  cbn [default table column uuid_column].
  unfold row_by_value, get_table. rewrite Ht. cbn [mbind result_bind].
  split.
  - intros pre u r post v Hr Hpre Hv He.
    by rewrite Hr, (scan_rows_first _ _ _ _ _ _ _ Hpre Hv He).
  - intros Hrows. by rewrite (scan_rows_none _ _ _ Hrows).
Qed.

(** X15: for a table whose lookup entry names a target table, a column and
    a column of references, a record that is not a UUID is looked up in the
    column of the target table, and the row found must refer to exactly one
    row in its column of references: that row is the answer; with no
    reference or with several the resolution raises [RowNotFound] for the
    table that was asked for. *)
Theorem resolve_through_references idl_ table_ rl tgt c uc t tt k s
    pre u row post v refs :
  _LOOKUP_TABLE !! table_ = Some rl →
  table rl = Some tgt →
  column rl = Some c →
  uuid_column rl = Some uc →
  uc ≠ "" →
  tables idl_ !! table_ = Some t →
  tables idl_ !! tgt = Some tt →
  uuid_UUID s = None →
  rows tt = pre ++ (u, row) :: post →
  Forall (λ ur, differs_on c (VAtom (AStr k s)) (snd ur)) pre →
  getattr row c = Ok v →
  py_eq v (VAtom (AStr k s)) = true →
  getattr row uc = Ok (VList refs) →
  row_by_record uuid_UUID sys_platform idl_ table_ (VAtom (AStr k s))
  = match refs with
    | [x] => Ok x
    | _ => Raise (RowNotFound table_ "record" (VAtom (AStr k s)))
    end.
Proof.
  intros Hrl Htgt Hc Huc Hne Ht Htt Hs Hr Hpre Hv He Hrefs.
  rewrite (row_by_record_not_a_uuid _ _ _ _ _ _ _ Ht Hs).
  unfold lookup_by_strategy. rewrite Hrl. cbn [default from_option id].
  rewrite Htgt, Hc, Huc.
  unfold row_by_value, get_table. rewrite Htt. cbn [mbind result_bind].
  rewrite Hr, (scan_rows_first _ _ _ _ _ _ _ Hpre Hv He).
  cbn [mbind result_bind]. rewrite (bool_decide_eq_false_2 _ Hne), Hrefs.
  cbn [mbind result_bind py_len].
  destruct refs as [|x [|y refs]]; try done.
Qed.

(** X16: in a table that has no entry in the lookup table and no index on
    one single column, a record that is not a UUID resolves to the first
    row of the table, whatever the record is, and raises [StopIteration]
    when the table is empty. *)
Theorem resolve_without_index_column idl_ table_ t k s :
  _LOOKUP_TABLE !! table_ = None →
  tables idl_ !! table_ = Some t →
  (∀ c, indexes t ≠ [[c]]) →
  uuid_UUID s = None →
  row_by_record uuid_UUID sys_platform idl_ table_ (VAtom (AStr k s))
  = match rows t with
    | [] => Raise StopIteration
    | (_, r) :: _ => Ok (ARow r)
    end.
Proof.
  intros Hrl Ht Hidx Hs.
  rewrite (row_by_record_not_a_uuid _ _ _ _ _ _ _ Ht Hs).
  unfold lookup_by_strategy. rewrite Hrl. cbn [default table column].
  assert (Hnone : get_index_column t = None).
  { unfold get_index_column.
    destruct (indexes t) as [|[|c [|c' idx]] [|idx' idxs]] eqn:Hi; try done.
    by destruct (Hidx c). }
  rewrite Hnone. by destruct (rows t) as [|[? ?] ?].
Qed.

End RecordResolverMore.

Section RecordResolverMoreSamples.
Import Idlutils Resolver Samples MoreSamples.

Lemma row_by_value_returns_first_match_witness :
  row_by_value (D:=value) port_idl "Port" "name" (VAtom (AStr KStr "eth0"))
    (Some VNone) = Ok (inl eth0_row).
Proof.
  apply (row_by_value_returns_first_match port_idl "Port" port_table "name"
           _ _ [(MkUUID 13, eth1_row)] (MkUUID 12) eth0_row []
           (VAtom (AStr KStr "eth0")));
    [reflexivity | reflexivity | | reflexivity | reflexivity].
  constructor; [|constructor]. by exists (VAtom (AStr KStr "eth1")).
Defined.

Lemma row_by_value_without_match_witness :
  row_by_value (D:=value) port_idl "QoS" "type" (VAtom (AStr KStr "egress"))
    None
  = Raise (RowNotFound "QoS" "type" (VAtom (AStr KStr "egress"))).
Proof.
  apply (row_by_value_without_match (D:=value) port_idl "QoS" qos_table
           "type" (VAtom (AStr KStr "egress")) None);
    [reflexivity|].
  constructor; [|constructor]. by exists (VAtom (AStr KStr "linux-htb")).
Defined.

Lemma resolve_by_uuid_witness :
  row_by_record sample_uuid_UUID "linux" port_idl "QoS"
    (VAtom (AStr KStr "00000000-0000-0000-0000-00000000000b"))
  = Ok (ARow qos_row).
Proof.
  apply (resolve_by_uuid sample_uuid_UUID "linux" port_idl "QoS" qos_table
           _ (MkUUID 11)); [reflexivity | | reflexivity | by left].
  apply NoDup_singleton.
Defined.

Lemma resolve_by_index_column_witness :
  row_by_record sample_uuid_UUID "linux" port_idl "Port"
    (VAtom (AStr KStr "eth0"))
  = Ok (ARow eth0_row).
Proof.
  apply (proj1 (resolve_by_index_column sample_uuid_UUID "linux" port_idl
                  "Port" port_table "name" KStr "eth0"
                  eq_refl eq_refl eq_refl eq_refl)
           [(MkUUID 13, eth1_row)] (MkUUID 12) eth0_row []
           (VAtom (AStr KStr "eth0")));
    [reflexivity | | reflexivity | reflexivity].
  constructor; [|constructor]. by exists (VAtom (AStr KStr "eth1")).
Defined.

Lemma resolve_through_references_witness :
  row_by_record sample_uuid_UUID "linux" port_idl "QoS"
    (VAtom (AStr KStr "eth0"))
  = Ok (ARow qos_row).
Proof.
  apply (resolve_through_references sample_uuid_UUID "linux" port_idl "QoS"
           (Build_RowLookup (Some "Port") (Some "name") (Some "qos"))
           "Port" "name" "qos" qos_table port_table KStr "eth0"
           [(MkUUID 13, eth1_row)] (MkUUID 12) eth0_row []
           (VAtom (AStr KStr "eth0")) [ARow qos_row]);
    try reflexivity; [discriminate|].
  constructor; [|constructor]. by exists (VAtom (AStr KStr "eth1")).
Defined.

Lemma resolve_without_index_column_witness :
  row_by_record sample_uuid_UUID "linux" port_idl "Manager"
    (VAtom (AStr KStr "no-such-manager"))
  = Ok (ARow manager_row).
Proof.
  apply (resolve_without_index_column sample_uuid_UUID "linux" port_idl
           "Manager" manager_table);
    [reflexivity | reflexivity | discriminate | reflexivity].
Defined.

End RecordResolverMoreSamples.

(** ** db_replace_record, continued *)

Section ReplaceRecordMore.
Import Replace Samples MoreSamples.

Lemma setitem_list_other (h : heap) l i r l' :
  l ≠ l' → setitem_list h l i r !! l' = h !! l'.
Proof.
  intros Hne. unfold setitem_list.
  destruct (h !! l) as [[]|]; try done. by rewrite lookup_insert_ne.
Qed.

Lemma setitem_dict_other (h : heap) l i k r l' :
  l ≠ l' → setitem_dict h l i k r !! l' = h !! l'.
Proof.
  intros Hne. unfold setitem_dict.
  destruct (h !! l) as [[]|]; try done. by rewrite lookup_insert_ne.
Qed.

Lemma replace_in_list_other l l' todo :
  l ≠ l' →
  ∀ (h : heap) i, snd (replace_in_list h l i todo) !! l' = h !! l'.
Proof.
  intros Hne. induction todo as [|v todo IH]; intros h i; [done|].
  cbn. destruct (is_Command h v); [|apply IH].
  destruct (get_result h v); [|done].
  rewrite IH. by apply setitem_list_other.
Qed.

Lemma replace_in_dict_other l l' todo :
  l ≠ l' →
  ∀ (h : heap) i, snd (replace_in_dict h l i todo) !! l' = h !! l'.
Proof.
  intros Hne. induction todo as [|[k v] todo IH]; intros h i; [done|].
  cbn. destruct (is_Command h v); [|apply IH].
  destruct (get_result h v); [|done].
  rewrite IH. by apply setitem_dict_other.
Qed.

(** X17: [db_replace_record] writes to no object but the list or the dict
    it is given: every other object of the store, and so every Command, is
    left as it was, also when the call fails. *)
Theorem db_replace_record_touches_only_its_argument (h : heap) obj :
  (∀ l', obj ≠ PRef l' → snd (db_replace_record h obj) !! l' = h !! l')
  ∧ (∀ l' c r, h !! l' = Some (OInstance c r) →
       snd (db_replace_record h obj) !! l' = Some (OInstance c r)).
Proof.
  assert (Hother : ∀ l', obj ≠ PRef l' →
            snd (db_replace_record h obj) !! l' = h !! l').
  { intros l' Hne. destruct obj as [| | |items|l]; try done. cbn.
    assert (l ≠ l') by congruence.
    destruct (h !! l) as [[items|items|[] r]|] eqn:Hl; try done.
    - pose proof (replace_in_dict_other l l' items H h 0%nat) as Hd.
      by destruct (replace_in_dict h l 0 items).
    - pose proof (replace_in_list_other l l' items H h 0%nat) as Hd.
      by destruct (replace_in_list h l 0 items). }
  split; [exact Hother|].
  intros l' c r Hl'.
  destruct obj as [| | |items|l]; try by rewrite Hother.
  destruct (decide (l = l')) as [->|Hne].
  - cbn. rewrite Hl'. by destruct c.
  - rewrite Hother; [done | congruence].
Qed.

(** The loop over a list that meets a Command without a result. *)
Lemma replace_in_list_fails (h0 : heap) l items0 pre c post e :
  h0 !! l = Some (OList items0) →
  commands_have_result h0 pre →
  is_Command h0 c = true →
  get_result h0 c = Raise e →
  ∀ seen,
    replace_in_list (<[l := OList (seen ++ pre ++ c :: post)]> h0) l
      (length seen) (pre ++ c :: post)
    = (Raise e,
       <[l := OList (seen ++ map (replaced h0) pre ++ c :: post)]> h0).
Proof.
  intros Hl Hres Hc He. induction pre as [|v pre IH]; intros seen.
  - cbn [app map replace_in_list].
    rewrite (is_Command_insert _ _ _ _ _ Hl) by done.
    rewrite (get_result_insert _ _ _ _ _ Hl) by done.
    by rewrite Hc, He.
  - cbn [app map replace_in_list].
    rewrite (is_Command_insert _ _ _ _ _ Hl) by done.
    rewrite (get_result_insert _ _ _ _ _ Hl) by done.
    assert (Hres' : commands_have_result h0 pre).
    { intros v' Hv'. apply Hres. by right. }
    destruct (is_Command h0 v) eqn:Hv.
    + destruct (Hres v) as [r Hr]; [by left|done|]. rewrite Hr.
      rewrite (replaced_command _ _ _ Hv Hr).
      unfold setitem_list. rewrite lookup_insert_eq, insert_insert_eq.
      rewrite insert_at_length.
      specialize (IH Hres' (seen ++ [r])).
      rewrite length_app, Nat.add_1_r, <- !app_assoc in IH. apply IH.
    + rewrite (replaced_other _ _ Hv).
      specialize (IH Hres' (seen ++ [v])).
      rewrite length_app, Nat.add_1_r, <- !app_assoc in IH. apply IH.
Qed.

(** X18: the replacement in a list is not atomic.  When the list holds a
    Command without a [result] attribute, [db_replace_record] raises
    [AttributeError] and leaves the list half updated: the Commands before
    that one have been replaced by their results, the rest is as it was. *)
Theorem db_replace_record_fails_half_way (h : heap) l pre c post :
  h !! l = Some (OList (pre ++ c :: post)) →
  commands_have_result h pre →
  is_Command h c = true →
  get_result h c = Raise AttributeError →
  db_replace_record h (PRef l)
  = (Raise AttributeError,
     <[l := OList (map (replaced h) pre ++ c :: post)]> h).
Proof.
  intros Hl Hres Hc He. unfold db_replace_record. rewrite Hl.
  pose proof (replace_in_list_fails h l _ pre c post _ Hl Hres Hc He []) as H.
  cbn [app length] in H. rewrite (insert_id h l _ Hl) in H.
  by rewrite H.
Qed.

(** X19: replacing twice is replacing once: after [db_replace_record] on a
    list whose Commands have results that are not Commands themselves, a
    second call returns the list and changes nothing. *)
Theorem db_replace_record_twice (h : heap) l items :
  h !! l = Some (OList items) →
  commands_have_result h items →
  (∀ v, v ∈ items → is_Command h v = true →
     is_Command h (result_or_self h v) = false) →
  db_replace_record (snd (db_replace_record h (PRef l))) (PRef l)
  = (Ok (PRef l), snd (db_replace_record h (PRef l))).
Proof.
  intros Hl Hres Hnc.
  assert (H1 : db_replace_record h (PRef l)
               = (Ok (PRef l), <[l := OList (map (replaced h) items)]> h)).
  { unfold db_replace_record. rewrite Hl.
    pose proof (replace_in_list_spec h l items items Hl Hres []) as H.
    cbn [app length] in H. rewrite (insert_id h l _ Hl) in H.
    by rewrite H. }
  rewrite H1. cbn [snd]. unfold db_replace_record at 1.
  rewrite lookup_insert_eq.
  rewrite replace_in_list_no_command; [done|].
  apply not_true_iff_false. intros (v' & Hin & Hc)%existsb_exists.
  rewrite (is_Command_insert _ _ _ _ _ Hl) in Hc by done.
  apply list_elem_of_In, list_elem_of_fmap in Hin as (v & -> & Hv).
  unfold replaced in Hc. destruct (is_Command h v) eqn:Hcv.
  - by rewrite (Hnc v Hv Hcv) in Hc.
  - by rewrite Hcv in Hc.
Qed.

End ReplaceRecordMore.

Section ReplaceRecordMoreSamples.
Import Replace Samples MoreSamples.

Lemma db_replace_record_fails_half_way_witness :
  db_replace_record broken_heap (PRef 4%positive)
  = (Raise AttributeError,
     <[4%positive := OList [PInt 10; PRef 3%positive; PRef 2%positive]]>
       broken_heap).
Proof.
  apply (db_replace_record_fails_half_way broken_heap 4%positive
           [PRef 1%positive] (PRef 3%positive) [PRef 2%positive]);
    [reflexivity | | reflexivity | reflexivity].
  intros v Hv Hc.
  apply elem_of_cons in Hv as [->|Hv]; [by exists (PInt 10)|].
  by apply elem_of_nil in Hv.
Defined.

Lemma db_replace_record_twice_witness :
  db_replace_record (snd (db_replace_record sample_heap (PRef 4%positive)))
    (PRef 4%positive)
  = (Ok (PRef 4%positive),
     snd (db_replace_record sample_heap (PRef 4%positive))).
Proof.
  apply (db_replace_record_twice sample_heap 4%positive
           [PRef 1%positive; PInt 5; PRef 2%positive]).
  - reflexivity.
  - intros v Hv Hc.
    apply elem_of_cons in Hv as [->|Hv]; [by exists (PInt 10)|].
    apply elem_of_cons in Hv as [->|Hv]; [discriminate Hc|].
    apply elem_of_cons in Hv as [->|Hv]; [by exists (PInt 20)|].
    by apply elem_of_nil in Hv.
  - intros v Hv Hc.
    apply elem_of_cons in Hv as [->|Hv]; [reflexivity|].
    apply elem_of_cons in Hv as [->|Hv]; [discriminate Hc|].
    apply elem_of_cons in Hv as [->|Hv]; [reflexivity|].
    by apply elem_of_nil in Hv.
Defined.

Lemma db_replace_record_touches_only_its_argument_witness :
  snd (db_replace_record sample_heap (PRef 4%positive)) !! 1%positive
  = sample_heap !! 1%positive.
Proof.
  apply (proj1 (db_replace_record_touches_only_its_argument sample_heap
                  (PRef 4%positive)) 1%positive).
  discriminate.
Defined.

End ReplaceRecordMoreSamples.

(** ** The commit loop, continued *)

Section CommitLoopMore.
Import Commit Samples MoreSamples.

Context {W Cmd Txn Res : Type}.
Variable time_time : W → Z * W.
Variable new_txn : W → Txn * W.
Variable run_idl : Cmd → Txn → W → option pyexn * W.
Variable txn_abort : Txn → W → W.
Variable commit_block : Txn → W → status * W.
Variable get_error : Txn → W → string.
Variable idl_run : W → W.
Variable cmd_post_commit : Cmd → Txn → W → option pyexn * W.
Variable cmd_result : Cmd → W → Res.
Variable self : Transaction (Cmd:=Cmd).

Local Abbreviation run_commands_ := (run_commands run_idl txn_abort self).
Local Abbreviation dispatch_ :=
  (dispatch get_error idl_run cmd_post_commit cmd_result self).
Local Abbreviation attempt_ :=
  (attempt time_time new_txn run_idl txn_abort commit_block self).
Local Abbreviation loop_ :=
  (commit_loop time_time new_txn run_idl txn_abort commit_block get_error
     idl_run cmd_post_commit cmd_result self).
Local Abbreviation do_commit_ :=
  (do_commit time_time new_txn run_idl txn_abort commit_block get_error
     idl_run cmd_post_commit cmd_result self).

Local Abbreviation running :=
  (LogDebug "Running txn n=%(n)d command(idx=%(idx)s): %(cmd)s").

Implicit Types st : state (W:=W).

Lemma last_status_app a b :
  last_status (a ++ b)
  = match last_status b with
    | Some s => Some s
    | None => last_status a
    end.
Proof.
  induction a as [|e a IH]; cbn.
  - by destruct (last_status b).
  - rewrite IH. by destruct (last_status b).
Qed.

Lemma last_status_nocommit evs : nocommit evs = true → last_status evs = None.
Proof.
  induction evs as [|e evs IH]; [done|].
  cbn. intros [He Hevs]%andb_true_iff. rewrite (IH Hevs). by destruct e.
Qed.

Lemma nocommit_app a b : nocommit (a ++ b) = nocommit a && nocommit b.
Proof. apply forallb_app. Qed.

Lemma filter_run_app (a b : list event) :
  filter (λ e, is_run e = true) (a ++ b)
  = filter (λ e, is_run e = true) a ++ filter (λ e, is_run e = true) b.
Proof. apply filter_app. Qed.

(** The commands that are applied when the loop over the commands ends
    without an exception, and how the loop ends with one. *)
Lemma run_commands_cases cmds idx txn st :
  ∃ evs, trace (snd (run_commands_ idx cmds txn st)) = trace st ++ evs
    ∧ nocommit evs = true
    ∧ match fst (run_commands_ idx cmds txn st) with
      | None =>
          filter (λ e, is_run e = true) evs
          = EvRunIdl <$> seq idx (length cmds)
      | Some _ => check_error self = true ∧ last evs = Some EvAbort
      end.
Proof.
  revert idx st. induction cmds as [|c cmds IH]; intros idx st.
  - exists []. cbn. by rewrite app_nil_r.
  - cbn [run_commands].
    destruct (run_idl c txn _) as [[ex|] w] eqn:Hrun.
    + destruct (check_error self) eqn:Hce.
      * exists [running; EvRunIdl idx; EvAbort]. cbn.
        rewrite <- !app_assoc. cbn. done.
      * match goal with
        | |- context [run_commands_ (S idx) cmds txn ?s] =>
            destruct (IH (S idx) s) as (evs & Ht & Hn & Hm);
            destruct (run_commands_ (S idx) cmds txn s) as [e' st']
        end.
        cbn [fst snd] in *.
        exists ([running; EvRunIdl idx; EvAbort] ++ evs).
        rewrite Ht. cbn [trace emit with_world].
        rewrite <- !app_assoc. split; [done|]. split; [exact Hn|].
        destruct e' as [ex'|]; [by destruct Hm|].
        change ([running; EvRunIdl idx; EvAbort] ++ evs)
          with (running :: EvRunIdl idx :: EvAbort :: evs).
        rewrite filter_cons_False, filter_cons_True,
          filter_cons_False by done.
        cbn [length seq]. by rewrite fmap_cons, Hm.
    + match goal with
      | |- context [run_commands_ (S idx) cmds txn ?s] =>
          destruct (IH (S idx) s) as (evs & Ht & Hn & Hm);
          destruct (run_commands_ (S idx) cmds txn s) as [e' st']
      end.
      cbn [fst snd] in *.
      exists ([running; EvRunIdl idx] ++ evs).
      rewrite Ht. cbn [trace emit with_world].
      rewrite <- !app_assoc. split; [done|]. split; [exact Hn|].
      destruct e' as [ex'|].
      * destruct Hm as [Hc Hl]. split; [done|].
        cbn. destruct evs; [done|]. by destruct evs.
      * change ([running; EvRunIdl idx] ++ evs)
          with (running :: EvRunIdl idx :: evs).
        rewrite filter_cons_False, filter_cons_True by done.
        cbn [length seq]. by rewrite fmap_cons, Hm.
Qed.

Lemma post_commit_from_nocommit cmds idx txn st :
  ∃ evs,
    trace (snd (post_commit_from cmd_post_commit idx cmds txn st))
    = trace st ++ evs
    ∧ nocommit evs = true.
Proof.
  revert idx st. induction cmds as [|c cmds IH]; intros idx st; cbn.
  - exists []. by rewrite app_nil_r.
  - destruct (cmd_post_commit c txn _) as [[ex|] w].
    + by exists [EvPostCommit idx].
    + match goal with
      | |- context [post_commit_from _ (S idx) cmds txn ?s] =>
          destruct (IH (S idx) s) as (evs & Ht & Hn)
      end.
      exists ([EvPostCommit idx] ++ evs). rewrite Ht. cbn.
      by rewrite <- !app_assoc.
Qed.

(** What an iteration has done when it hands over. *)
Lemma attempt_cases attempts st :
  match attempt_ attempts st with
  | Failed ex st1 =>
      (ex = timed_out ∧ ∃ t, trace st1 = trace st ++ [EvTime t])
      ∨ (check_error self = true ∧
         ∃ evs, trace st1 = trace st ++ evs ∧ last evs = Some EvAbort
                ∧ nocommit evs = true)
  | Committed s txn st1 =>
      ∃ evs w0, trace st1 = trace st ++ evs ++ [EvCommitBlock s]
        ∧ s = fst (commit_block txn w0)
        ∧ nocommit evs = true
        ∧ filter (λ e, is_run e = true) evs
          = EvRunIdl <$> seq 0 (length (commands self))
  end.
Proof.
  unfold attempt.
  assert (Hbody : ∀ st1 pre,
    trace st1 = trace st ++ pre →
    nocommit pre = true →
    filter (λ e, is_run e = true) pre = [] →
    match
      (let '(txn, w) := new_txn (world st1) in
       let st2 := emit EvNewTxn (with_world w st1) in
       let st2 := pre_commit txn st2 in
       let '(e, st3) := run_commands_ 0 (commands self) txn st2 in
       match e with
       | Some ex => Failed ex st3
       | None =>
           let '(status_, w) := commit_block txn (world st3) in
           Committed status_ txn
             (emit (EvCommitBlock status_) (with_world w st3))
       end)
    with
    | Failed ex st1' =>
        (ex = timed_out ∧ ∃ t, trace st1' = trace st ++ [EvTime t])
        ∨ (check_error self = true ∧
           ∃ evs, trace st1' = trace st ++ evs ∧ last evs = Some EvAbort
                  ∧ nocommit evs = true)
    | Committed s txn st1' =>
        ∃ evs w0, trace st1' = trace st ++ evs ++ [EvCommitBlock s]
          ∧ s = fst (commit_block txn w0)
          ∧ nocommit evs = true
          ∧ filter (λ e, is_run e = true) evs
            = EvRunIdl <$> seq 0 (length (commands self))
    end).
  { intros st1 pre Hpre Hnc Hrun.
    destruct (new_txn (world st1)) as [txn w]. unfold pre_commit.
    destruct (run_commands_cases (commands self) 0 txn
                (emit EvNewTxn (with_world w st1))) as (evs & Ht & Hn & Hm).
    destruct (run_commands_ _ _ _ _) as [e st3]. cbn [fst snd] in *.
    cbn [trace emit with_world] in Ht. rewrite Hpre, <- !app_assoc in Ht.
    destruct e as [ex|].
    - right. destruct Hm as [Hc Hl]. split; [done|].
      exists (pre ++ [EvNewTxn] ++ evs). split; [done|]. split.
      + rewrite !last_app, Hl. done.
      + by rewrite !nocommit_app, Hnc, Hn.
    - destruct (commit_block txn (world st3)) as [status_ w'] eqn:Hcb.
      exists (pre ++ [EvNewTxn] ++ evs), (world st3).
      cbn [trace emit with_world]. rewrite Ht, Hcb, <- !app_assoc.
      split; [done|]. split; [done|]. split.
      + by rewrite !nocommit_app, Hnc, Hn.
      + rewrite !filter_run_app, Hrun, Hm. cbn [app].
        by rewrite filter_cons_False by done. }
  destruct (0 <? attempts)%nat.
  - unfold timeout_exceeded, elapsed_time, now.
    destruct (time_time (world st)) as [t w]. cbn [start_time emit with_world].
    destruct (timeout self <? t - start_time st).
    + left. split; [done|]. by exists t.
    + apply (Hbody _ [EvTime t]); done.
  - apply (Hbody st []); [by rewrite app_nil_r | done | done].
Qed.

(** What [do_commit] does with a status. *)
Lemma dispatch_cases s txn st1 :
  ∃ evs, trace (snd (dispatch_ s txn st1)) = trace st1 ++ evs
    ∧ nocommit evs = true
    ∧ match fst (dispatch_ s txn st1) with
      | None => s = TRY_AGAIN
      | Some (Returned None) =>
          s = ABORTED ∨ ((s = ERROR ∨ s = NOT_LOCKED) ∧ check_error self = false)
      | Some (Returned (Some rs)) =>
          (s = SUCCESS ∨ s = UNCHANGED ∨ ∃ n, s = UNKNOWN n)
          ∧ rs = map (λ cmd, cmd_result cmd
                               (world (snd (dispatch_ s txn st1))))
                     (commands self)
      | Some (Raised e) => check_error self = true ∨ s = SUCCESS
      end.
Proof.
  destruct s; cbn [dispatch].
  - eexists [_; _]. cbn. rewrite <- !app_assoc. by split.
  - destruct (log_errors self), (check_error self) eqn:Hc; cbn;
      first [ by eexists [_]; repeat split; eauto
            | exists []; rewrite app_nil_r; repeat split; eauto ].
  - destruct (log_errors self), (check_error self) eqn:Hc; cbn;
      first [ by eexists [_]; repeat split; eauto
            | exists []; rewrite app_nil_r; repeat split; eauto ].
  - eexists [_]. cbn. split; [done|]. split; [done|]. by left.
  - eexists [_]. cbn. split; [done|]. split; [done|]. split; [|done].
    right. by left.
  - unfold post_commit.
    destruct (post_commit_from_nocommit (commands self) 0 txn st1)
      as (evs & Ht & Hn).
    destruct (post_commit_from _ _ _ _ _) as [[ex|] st2]; cbn [fst snd] in *;
      exists evs; (split; [done|]); (split; [done|]).
    + by right.
    + split; [by left | done].
  - eexists [_]. cbn. split; [done|]. split; [done|]. split; [|done].
    right. right. by eexists.
Qed.

(** Where the outcome of the loop comes from. *)
Lemma commit_loop_outcome fuel attempts st out st' :
  loop_ fuel attempts st = (Some out, st') →
  match out with
  | Returned None =>
      ∃ s, last_status (trace st') = Some s
           ∧ (s = ABORTED
              ∨ ((s = ERROR ∨ s = NOT_LOCKED) ∧ check_error self = false))
  | Returned (Some rs) =>
      ∃ s, last_status (trace st') = Some s
           ∧ (s = SUCCESS ∨ s = UNCHANGED ∨ ∃ n, s = UNKNOWN n)
           ∧ rs = map (λ cmd, cmd_result cmd (world st')) (commands self)
  | Raised e =>
      e = timed_out ∨ check_error self = true
      ∨ last_status (trace st') = Some SUCCESS
  end.
Proof.
  revert attempts st. induction fuel as [|fuel IH]; intros attempts st;
    [done|].
  cbn [commit_loop].
  pose proof (attempt_cases attempts st) as Ha.
  destruct (attempt_ attempts st) as [ex st1|s txn st1].
  - intros [= <- <-]. destruct Ha as [[-> _]|[Hc _]]; [by left|].
    right. by left.
  - destruct Ha as (evs & w0 & Ht & _ & _ & _).
    destruct (dispatch_cases s txn st1) as (e2 & Ht2 & Hn2 & Hm).
    destruct (dispatch_ s txn st1) as [[o|] st2]; cbn [fst snd] in *.
    + assert (Hlast : last_status (trace st2) = Some s).
      { rewrite Ht2, last_status_app, (last_status_nocommit _ Hn2), Ht.
        rewrite app_assoc, last_status_app. done. }
      intros [= <- <-]. destruct o as [[rs|]|e].
      * exists s. by destruct Hm.
      * by exists s.
      * destruct Hm as [Hc| ->]; [right; by left|]. right. by right.
    + apply IH.
Qed.

(** X20: with a handle that answers [TRY_AGAIN] to every commit, and
    without [check_error], [do_commit] returns nothing: if it ends, it ends
    with the [RuntimeError] of the deadline. *)
Theorem endless_try_again_ends_only_by_timeout fuel w out st :
  (∀ txn w', fst (commit_block txn w') = TRY_AGAIN) →
  check_error self = false →
  do_commit_ fuel w = (Some out, st) →
  out = Raised timed_out.
Proof.
  intros Hstuck Hce. unfold do_commit. destruct (time_time w) as [t0 w0].
  generalize {| world := w0; trace := [EvTime t0]; start_time := t0 |}.
  generalize 0%nat.
  induction fuel as [|fuel IH]; intros attempts st0; [done|].
  cbn [commit_loop].
  pose proof (attempt_cases attempts st0) as Ha.
  destruct (attempt_ attempts st0) as [ex st1|s txn st1].
  - intros [= <- <-]. destruct Ha as [[-> _]|[Hc _]]; [done|congruence].
  - destruct Ha as (evs & w1 & _ & Hs & _). rewrite Hstuck in Hs. subst s.
    cbn [dispatch]. apply IH.
Qed.


(** X22: an iteration that ends with an exception has committed nothing.
    Either the deadline has passed, and then only the clock was read; or a
    command raised under [check_error], and then the handle was aborted
    last and [commit_block] was not called. *)
Theorem failed_attempt_commits_nothing attempts st ex st1 :
  attempt_ attempts st = Failed ex st1 →
  ∃ evs, trace st1 = trace st ++ evs
    ∧ nocommit evs = true
    ∧ ((ex = timed_out ∧ ∃ t, evs = [EvTime t])
       ∨ (check_error self = true ∧ last evs = Some EvAbort)).
Proof.
  intros Hf. pose proof (attempt_cases attempts st) as Ha. rewrite Hf in Ha.
  destruct Ha as [[-> [t Ht]]|(Hc & evs & Ht & Hl & Hn)].
  - exists [EvTime t]. split; [done|]. split; [done|]. left. eauto.
  - exists evs. split; [done|]. split; [done|]. by right.
Qed.

(** X23: the outcome of [do_commit] follows the status of its last commit.
    It returns [None] only after [ABORTED], or after [ERROR] or
    [NOT_LOCKED] without [check_error]; it returns results, one for each
    command, only after [SUCCESS], [UNCHANGED] or a status it does not
    know; and it raises only at the deadline, under [check_error], or when
    a post-commit step fails after [SUCCESS]. *)
Theorem do_commit_outcome_follows_last_status fuel w out st :
  do_commit_ fuel w = (Some out, st) →
  match out with
  | Returned None =>
      ∃ s, last_status (trace st) = Some s
           ∧ (s = ABORTED
              ∨ ((s = ERROR ∨ s = NOT_LOCKED) ∧ check_error self = false))
  | Returned (Some rs) =>
      ∃ s, last_status (trace st) = Some s
           ∧ (s = SUCCESS ∨ s = UNCHANGED ∨ ∃ n, s = UNKNOWN n)
           ∧ rs = map (λ cmd, cmd_result cmd (world st)) (commands self)
  | Raised e =>
      e = timed_out ∨ check_error self = true
      ∨ last_status (trace st) = Some SUCCESS
  end.
Proof.
  unfold do_commit. destruct (time_time w) as [t0 w0].
  apply commit_loop_outcome.
Qed.

End CommitLoopMore.

Section CommitLoopMoreSamples.
Import Commit Samples MoreSamples.

Lemma endless_try_again_ends_only_by_timeout_witness :
  fst (do_commit mock_time mock_new_txn mock_run_idl mock_abort
         stuck_commit_block mock_get_error mock_idl_run mock_post_commit
         mock_result (mock_txn false true) 5%nat (mock_world 0 3 []))
  = Some (Raised timed_out).
Proof.
  destruct (do_commit mock_time mock_new_txn mock_run_idl mock_abort
              stuck_commit_block mock_get_error mock_idl_run mock_post_commit
              mock_result (mock_txn false true) 5%nat (mock_world 0 3 []))
    as [[out|] st] eqn:Hd.
  - cbn [fst]. f_equal.
    exact (endless_try_again_ends_only_by_timeout mock_time mock_new_txn
             mock_run_idl mock_abort stuck_commit_block mock_get_error
             mock_idl_run mock_post_commit mock_result (mock_txn false true)
             5%nat (mock_world 0 3 []) out st (λ _ _, eq_refl) eq_refl Hd).
  - vm_compute in Hd. discriminate Hd.
Defined.

Lemma failed_attempt_commits_nothing_witness :
  ∃ evs,
    [EvTime 0; EvNewTxn; LogDebug "Running txn n=%(n)d command(idx=%(idx)s): %(cmd)s";
     EvRunIdl 0;
     LogDebug "Running txn n=%(n)d command(idx=%(idx)s): %(cmd)s";
     EvRunIdl 1; EvAbort]
    = [EvTime 0] ++ evs
    ∧ nocommit evs = true
    ∧ ((KeyError = timed_out ∧ ∃ t, evs = [EvTime t])
       ∨ (check_error (mock_txn true true) = true ∧ last evs = Some EvAbort)).
Proof.
  apply (failed_attempt_commits_nothing mock_time mock_new_txn failing_run_idl
           mock_abort mock_commit_block (mock_txn true true) 0%nat
           (mock_state (mock_world 1 1 []) 0) KeyError
           {| world := mock_world 1 1 [];
              trace := [EvTime 0; EvNewTxn;
                        LogDebug "Running txn n=%(n)d command(idx=%(idx)s): %(cmd)s";
                        EvRunIdl 0;
                        LogDebug "Running txn n=%(n)d command(idx=%(idx)s): %(cmd)s";
                        EvRunIdl 1; EvAbort];
              start_time := 0 |}).
  reflexivity.
Defined.

Lemma do_commit_outcome_follows_last_status_witness :
  ∃ s, last_status
         (trace (snd (do_commit mock_time mock_new_txn mock_run_idl mock_abort
                        mock_commit_block mock_get_error mock_idl_run
                        mock_post_commit mock_result (mock_txn true true)
                        2%nat (mock_world 0 1 [TRY_AGAIN; ABORTED]))))
       = Some s
       ∧ (s = ABORTED
          ∨ ((s = ERROR ∨ s = NOT_LOCKED)
             ∧ check_error (mock_txn true true) = false)).
Proof.
  exact (do_commit_outcome_follows_last_status mock_time mock_new_txn
           mock_run_idl mock_abort mock_commit_block mock_get_error
           mock_idl_run mock_post_commit mock_result (mock_txn true true)
           2%nat (mock_world 0 1 [TRY_AGAIN; ABORTED]) (Returned None)
           (snd (do_commit mock_time mock_new_txn mock_run_idl mock_abort
                   mock_commit_block mock_get_error mock_idl_run
                   mock_post_commit mock_result (mock_txn true true)
                   2%nat (mock_world 0 1 [TRY_AGAIN; ABORTED])))
           eq_refl).
Defined.

End CommitLoopMoreSamples.

(** ** wait_for_change *)

Section WaitForChange.
Import Waiting MoreSamples.

Context {W : Type}.
Variable change_seqno : W → Z.
Variable idl_run : W → bool * W.
Variable poll_block : Z → W → W.
Variable time_time : W → Z * W.

Local Abbreviation wait_loop_ :=
  (wait_loop change_seqno idl_run poll_block time_time).

Lemma wait_loop_sound fuel timeout_ seqno stop w out w' :
  wait_loop_ fuel timeout_ seqno stop w = (Some out, w') →
  match out with
  | WaitReturned =>
      change_seqno w' ≠ seqno
      ∨ ∃ w0, change_seqno w0 = seqno ∧ idl_run w0 = (true, w')
  | WaitRaised msg =>
      msg = "Timeout"
      ∧ ∃ w0 w1 t, change_seqno w0 = seqno ∧ idl_run w0 = (false, w1)
          ∧ time_time (poll_block (timeout_ * 1000) w1) = (t, w')
          ∧ stop < t
  end.
Proof.
  revert w. induction fuel as [|fuel IH]; intros w; [done|].
  cbn [wait_loop].
  destruct (Z.eqb_spec (change_seqno w) seqno) as [Heq|Hne].
  - destruct (idl_run w) as [[] w1] eqn:Hrun.
    + intros [= <- <-]. right. by exists w.
    + destruct (time_time _) as [t w2] eqn:Ht.
      destruct (Z.ltb_spec stop t) as [Hlt|Hge].
      * intros [= <- <-]. split; [done|]. by exists w, w1, t.
      * apply IH.
  - intros [= <- <-]. by left.
Qed.

(** X24: when [wait_for_change] returns, the change counter of the IDL is
    not the awaited one any more, or the last [run()] of the IDL, made
    while it still was, reported a change.  When it raises, the message is
    ["Timeout"], and the clock was read past the deadline, start time plus
    timeout, right after a poll that followed a [run()] without change:
    the deadline is not looked at before the first poll. *)
Theorem wait_for_change_sound fuel timeout_ seqno w out w' :
  wait_for_change change_seqno idl_run poll_block time_time
    fuel timeout_ seqno w = (Some out, w') →
  let awaited := default (change_seqno w) seqno in
  match out with
  | WaitReturned =>
      change_seqno w' ≠ awaited
      ∨ ∃ w0, change_seqno w0 = awaited ∧ idl_run w0 = (true, w')
  | WaitRaised msg =>
      msg = "Timeout"
      ∧ ∃ w0 w1 t, change_seqno w0 = awaited ∧ idl_run w0 = (false, w1)
          ∧ time_time (poll_block (timeout_ * 1000) w1) = (t, w')
          ∧ fst (time_time w) + timeout_ < t
  end.
Proof.
  unfold wait_for_change. destruct (time_time w) as [t0 w0]. cbn [fst].
  intros H%wait_loop_sound. by destruct seqno.
Qed.

End WaitForChange.

Section WaitForChangeSamples.
Import Waiting MoreSamples.

(** With a change that comes after two polls, the call returns, and the
    counter has moved from 7 to 8. *)
Lemma wait_for_change_sound_witness :
  wmock_seqno
    (snd (wait_for_change wmock_seqno wmock_run wmock_poll wmock_time
            5%nat 10 None {| wclock := 0; wseqno := 7; pending := 2 |}))
  ≠ 7
  ∨ ∃ w0, wmock_seqno w0 = 7
          ∧ wmock_run w0
            = (true,
               snd (wait_for_change wmock_seqno wmock_run wmock_poll
                      wmock_time 5%nat 10 None
                      {| wclock := 0; wseqno := 7; pending := 2 |})).
Proof.
  exact (wait_for_change_sound wmock_seqno wmock_run wmock_poll wmock_time
           5%nat 10 None {| wclock := 0; wseqno := 7; pending := 2 |}
           WaitReturned
           (snd (wait_for_change wmock_seqno wmock_run wmock_poll wmock_time
                   5%nat 10 None {| wclock := 0; wseqno := 7; pending := 2 |}))
           eq_refl).
Defined.

End WaitForChangeSamples.
